(** * A shallow embedding of the data-access facade [ModelAbstract]

    The facade sits between application code and a document store.  The
    development has three layers:

    - the JavaScript values the facade inspects (truthiness, property reads,
      string coercion, loose comparison with a number);
    - the world the facade runs in: the caller's heap of mutable objects, the
      store driver (an interface), a logical clock, and the trace of every
      call issued to the driver, to the timers and to the instrumentation
      sink;
    - the methods of [ModelAbstract], one definition per method, in the order
      of the source file. *)

From stdpp Require Import base strings list gmap pretty.
From Stdlib Require Import ZArith Lia.

Set Warnings "-register-all".

Local Open Scope string_scope.
Local Open Scope list_scope.
Local Open Scope Z_scope.

(** ** JavaScript values *)

(** Numbers are the integers the code meets (error codes, counts).  Objects
    held in a [value] are passed by value; an object the facade mutates is
    kept in the heap and named by a location (see [World]). *)
Inductive value : Type :=
| VUndefined
| VNull
| VBool (b : bool)
| VNum (n : Z)
| VStr (s : string)
| VArr (items : list value)
| VObj (props : list (string * value)).

(** What a statement produces: a value, or a thrown value. *)
Inductive completion (A : Type) : Type :=
| Normal (a : A)
| Throw (e : value).
Arguments Normal {A} a.
Arguments Throw {A} e.

(** [if (v)], [!v], [a && b] all go through ToBoolean. *)
Definition truthy (v : value) : bool :=
  match v with
  | VUndefined | VNull => false
  | VBool b => b
  | VNum n => negb (n =? 0)
  | VStr s => negb (String.eqb s "")
  | VArr _ | VObj _ => true
  end.

Definition falsy (v : value) : bool := negb (truthy v).

(** An own property of an object literal; an absent key reads [undefined]. *)
Fixpoint lookup_prop (k : string) (props : list (string * value)) : value :=
  match props with
  | [] => VUndefined
  | (k', v) :: rest => if String.eqb k k' then v else lookup_prop k rest
  end.

(** [o.k = v]: an existing key keeps its place, a new key goes last. *)
Fixpoint assign_prop (k : string) (v : value) (props : list (string * value))
  : list (string * value) :=
  match props with
  | [] => [(k, v)]
  | (k', v') :: rest =>
      if String.eqb k k' then (k, v) :: rest else (k', v') :: assign_prop k v rest
  end.

(** The runtime's error for a property read on [null] or [undefined].  The
    wording of the message depends on the engine; only its shape matters. *)
Definition TypeError (msg : string) : value :=
  VObj [("name", VStr "TypeError"); ("message", VStr msg)].

Definition string_of_char (c : Ascii.ascii) : string := String c EmptyString.

(** [v.k] for a named property.  Primitives other than [null] and
    [undefined] are boxed: the names the facade reads ([id], [ops], [code],
    [message]) are not members of the boxes' prototypes, so they read
    [undefined]; [length] is the one named member modelled. *)
Definition get (v : value) (k : string) : completion value :=
  match v with
  | VUndefined =>
      Throw (TypeError ("Cannot read property '" +:+ k +:+ "' of undefined"))
  | VNull => Throw (TypeError ("Cannot read property '" +:+ k +:+ "' of null"))
  | VBool _ | VNum _ => Normal VUndefined
  | VStr s =>
      Normal (if String.eqb k "length" then VNum (Z.of_nat (String.length s))
              else VUndefined)
  | VArr items =>
      Normal (if String.eqb k "length" then VNum (Z.of_nat (length items))
              else VUndefined)
  | VObj props => Normal (lookup_prop k props)
  end.

(** [v[i]] for an index. *)
Definition get_index (v : value) (i : nat) : completion value :=
  match v with
  | VUndefined =>
      Throw (TypeError ("Cannot read property '" +:+ pretty i +:+ "' of undefined"))
  | VNull => Throw (TypeError ("Cannot read property '" +:+ pretty i +:+ "' of null"))
  | VBool _ | VNum _ => Normal VUndefined
  | VStr s =>
      Normal (match String.get i s with
              | Some c => VStr (string_of_char c)
              | None => VUndefined
              end)
  | VArr items => Normal (default VUndefined (items !! i))
  | VObj props => Normal (lookup_prop (pretty i) props)
  end.

(** ToString, as [+] and template literals apply it. *)
Fixpoint to_string (v : value) : string :=
  match v with
  | VUndefined => "undefined"
  | VNull => "null"
  | VBool b => if b then "true" else "false"
  | VNum n => pretty n
  | VStr s => s
  | VArr items =>
      String.concat ","
        (map (fun x => match x with
                       | VUndefined | VNull => ""
                       | _ => to_string x
                       end) items)
  | VObj _ => "[object Object]"
  end.

(** The built-ins of the runtime the facade calls but does not define. *)
Class Runtime : Type := {
  (** the text [JSON.stringify(v)] contributes to a template literal *)
  JSON_stringify : value -> string;
  (** StringToNumber, [None] for NaN *)
  StringToNumber : string -> option Z
}.

(** [v == n] for a number [n] (abstract equality, ECMAScript 7.2.14). *)
Definition loose_eq_num `{Runtime} (v : value) (n : Z) : bool :=
  match v with
  | VUndefined | VNull => false
  | VBool b => (if b then 1 else 0) =? n
  | VNum m => m =? n
  | VStr s => bool_decide (StringToNumber s = Some n)
  | VArr _ | VObj _ => bool_decide (StringToNumber (to_string v) = Some n)
  end.

(** [s] occurs in [t]. *)
Definition contains (t s : string) : Prop :=
  exists pre post : string, t = pre +:+ s +:+ post.

(** ** The world the facade runs in *)

(** Objects the facade mutates ([data] of [insertOne], [options] of
    [findOneAndUpdate]) live in the caller's heap; a location is the
    identity of such an object. *)
Definition loc : Type := positive.

(** An index declaration [{fields, options: {name, ...}}]; [name] is the
    reconciliation key. *)
Record IndexOptions : Type := {
  opt_name : string;
  opt_rest : list (string * value)
}.

Record IndexDecl : Type := {
  idx_fields : value;
  idx_options : IndexOptions
}.

(** The driver-level cursor a query chain builds: a description of the
    query, nothing is sent to the store until it is counted or drained. *)
Record Cursor : Type := {
  cur_collection : string;
  cur_filter : value;
  cur_fields : value;
  cur_sort : value;
  cur_limit : option nat;
  cur_offset : option nat
}.

(** The calls the facade issues on its collection handle. *)
Inductive call : Type :=
| IndexExists (name : string)
| CreateIndex (fields : value) (options : IndexOptions)
| InsertOne (data : loc)
| FindOneAndUpdate (filter update options : value)
| FindOne (query options : value)
| Update (filter data options : value)
| Remove (filter options : value)
| Count (filter : value)
| Aggregate (pipeline options : value)
| CursorCount (c : Cursor)
| CursorToArray (c : Cursor).

(** How the promise returned by a driver call settles. *)
Inductive reply : Type :=
| Fulfils (v : value)
| Rejects (e : value).

(** The store driver, an external collaborator: for the collection bound to
    a name, a call reads the caller's heap (for arguments passed by
    reference), answers, and moves the store to its next state. *)
Class Driver (St : Type) : Type := {
  driver_call : string -> call -> gmap loc (list (string * value)) -> St -> reply * St
}.

(** The record handed to the instrumentation sink. *)
Record InstrRecord : Type := {
  category : string;
  operationName : string;
  message : string;
  durationMs : nat;
  error : option value
}.

(** Everything observable from outside the facade, in the order it happens. *)
Inductive event : Type :=
| Call (collection : string) (c : call)
| TimerStop (operation : string)
| TimerError (operation : string) (msg : value)
| Log (r : InstrRecord).

(** The state of the promise an operation returned, once every handler the
    operation registered has run: [Pending] is a promise nobody settles. *)
Inductive promise : Type :=
| Resolved (v : value)
| Rejected (e : value)
| Pending.

Record World (St : Type) : Type := {
  heap : gmap loc (list (string * value));
  store : St;
  now : nat;
  trace : list event
}.
Arguments heap {St} w.
Arguments store {St} w.
Arguments now {St} w.
Arguments trace {St} w.

(** ** Computations: state passing with exceptions *)

Definition M (St A : Type) : Type := World St -> completion A * World St.

Definition ret {St A} (a : A) : M St A := fun w => (Normal a, w).

Definition throw {St A} (e : value) : M St A := fun w => (Throw e, w).

Definition bind {St A B} (m : M St A) (k : A -> M St B) : M St B :=
  fun w =>
    match m w with
    | (Normal a, w') => k a w'
    | (Throw e, w') => (Throw e, w')
    end.

Declare Scope js_scope.
Delimit Scope js_scope with js.
Notation "x <- m ;; k" := (bind m (fun x => k))
  (at level 100, m at next level, right associativity) : js_scope.
Notation "m ;;; k" := (bind m (fun _ => k))
  (at level 100, right associativity) : js_scope.
Local Open Scope js_scope.

Definition lift {St A} (c : completion A) : M St A := fun w => (c, w).

Definition emit {St} (e : event) : M St unit :=
  fun w =>
    (Normal tt,
     {| heap := heap w; store := store w; now := now w; trace := trace w ++ [e] |}).

(** The store answers; awaiting an answer is the only way time passes. *)
Definition tick {St} : M St unit :=
  fun w =>
    (Normal tt,
     {| heap := heap w; store := store w; now := S (now w); trace := trace w |}).

(** ** Promises *)

Section Promises.
Context {St : Type}.

(** [new Promise(executor)]: the executor runs at once; whatever it throws
    before settling rejects the promise. *)
Definition new_Promise (executor : M St promise) : M St promise :=
  fun w =>
    match executor w with
    | (Normal p, w') => (Normal p, w')
    | (Throw e, w') => (Normal (Rejected e), w')
    end.

(** A rejection handler at the end of a chain: what it throws rejects the
    chain's own promise, which nobody listens to. *)
Definition run_catch (onRejected : value -> M St promise) (e : value)
  : M St promise :=
  fun w =>
    match onRejected e w with
    | (Normal p, w') => (Normal p, w')
    | (Throw _, w') => (Normal Pending, w')
    end.

(** [p.then(onFulfilled).catch(onRejected)] once [p] has settled as [r]: a
    throw in [onFulfilled] is a rejection that [onRejected] receives. *)
Definition then_catch (r : reply)
    (onFulfilled onRejected : value -> M St promise) : M St promise :=
  tick ;;;
  match r with
  | Fulfils v =>
      fun w =>
        match onFulfilled v w with
        | (Normal p, w') => (Normal p, w')
        | (Throw e, w') => run_catch onRejected e w'
        end
  | Rejects e => run_catch onRejected e
  end.

(** [Promise.all]: every value in order, or a rejection.  With several
    rejections the runtime reports the one that settled first; the model
    takes the first in the list. *)
Fixpoint Promise_all (promises : list reply) : list value + value :=
  match promises with
  | [] => inl []
  | Rejects e :: _ => inr e
  | Fulfils v :: rest =>
      match Promise_all rest with
      | inl vs => inl (v :: vs)
      | inr e => inr e
      end
  end.

Definition all_settled (promises : list reply) : reply :=
  match Promise_all promises with
  | inl data => Fulfils (VArr data)
  | inr e => Rejects e
  end.

(** lodash's [_.each] over an array, the callback receiving the element and
    its key; the array being filled by the callbacks is threaded through. *)
Fixpoint each_from {A B : Type} (key : nat) (collection : list A)
    (iteratee : A -> nat -> B -> M St B) (acc : B) : M St B :=
  match collection with
  | [] => ret acc
  | x :: rest =>
      acc' <- iteratee x key acc ;;
      each_from (S key) rest iteratee acc'
  end.

Definition each {A B : Type} (collection : list A)
    (iteratee : A -> nat -> B -> M St B) (acc : B) : M St B :=
  each_from 0%nat collection iteratee acc.

End Promises.

(** ** Collaborators of the facade that live elsewhere in the repository *)

(** The constants of [./ErrorCodes], whose values the facade never inspects. *)
Class ErrorCodes : Type := {
  NO_COLLECTION_NAME : value;
  ALREADY_EXISTS : value
}.

(** Modelled from the spec: the class [ModelError] of [./Error], built as
    [new ModelError(message, code)]; the spec gives a normalized error the
    shape [{message, code}]. *)
Definition ModelError (msg : string) (code : value) : value :=
  VObj [("message", VStr msg); ("code", code)].

(** Modelled from the spec: the class [DebugTimer] of [Debug/Timer].  A timer
    is started for a category and an operation name, carries a mutable
    [message], and has two terminal calls: [stop()] hands
    [{category, name, message, durationMs}] to the registered completion
    hook, [error(message)] hands it the same record with [error] set. *)
Record DebugTimer (St : Type) : Type := {
  tm_category : string;
  tm_name : string;
  tm_message : string;
  tm_started : nat;
  tm_onStop : option (InstrRecord -> M St unit)
}.
Arguments tm_category {St} _.
Arguments tm_name {St} _.
Arguments tm_message {St} _.
Arguments tm_started {St} _.
Arguments tm_onStop {St} _.

(** What the query chain tells its execution hook about the query; the spec
    does not give the wording. *)
Class QueryText : Type := {
  debugMessage : Cursor -> string
}.

Section Timer.
Context {St : Type}.

Definition new_DebugTimer (cat name : string) : M St (DebugTimer St) :=
  fun w =>
    (Normal {| tm_category := cat; tm_name := name; tm_message := "";
               tm_started := now w; tm_onStop := None |}, w).

Definition onStop (hook : InstrRecord -> M St unit) (t : DebugTimer St)
  : DebugTimer St :=
  {| tm_category := tm_category t; tm_name := tm_name t;
     tm_message := tm_message t; tm_started := tm_started t;
     tm_onStop := Some hook |}.

(** [timer.message = msg] *)
Definition set_message (msg : string) (t : DebugTimer St) : DebugTimer St :=
  {| tm_category := tm_category t; tm_name := tm_name t;
     tm_message := msg; tm_started := tm_started t;
     tm_onStop := tm_onStop t |}.

Definition deliver (t : DebugTimer St) (err : option value) : M St unit :=
  match tm_onStop t with
  | None => ret tt
  | Some hook =>
      fun w =>
        hook {| category := tm_category t; operationName := tm_name t;
                message := tm_message t;
                durationMs := (now w - tm_started t)%nat;
                error := err |} w
  end.

Definition stop (t : DebugTimer St) : M St unit :=
  emit (TimerStop (tm_name t)) ;;; deliver t None.

Definition error_ (t : DebugTimer St) (msg : value) : M St unit :=
  emit (TimerError (tm_name t) msg) ;;; deliver t (Some msg).

End Timer.

(** Modelled from the spec: the class [FindCursorChain] of
    [./FindCursorChain].  It is constructed with a collection handle, a
    filter and a projection; mutators add sort order, limit and offset and
    return the chain; the owner may register an execution hook; the one
    terminal call builds a driver-level cursor from the accumulated state
    and hands it to the hook, or, with no hook, counts and drains it
    itself and resolves with [{total, docs}]. *)
Record FindCursorChain (St : Type) : Type := {
  ch_collection : option string;
  ch_filter : value;
  ch_fields : value;
  ch_sort : value;
  ch_limit : option nat;
  ch_offset : option nat;
  ch_onExec : option (Cursor -> string -> M St promise)
}.
Arguments ch_collection {St} _.
Arguments ch_filter {St} _.
Arguments ch_fields {St} _.
Arguments ch_sort {St} _.
Arguments ch_limit {St} _.
Arguments ch_offset {St} _.
Arguments ch_onExec {St} _.

Section Chain.
Context `{QueryText} {St : Type} `{Driver St}.

(** A call on a bound collection: it is recorded, and the driver answers. *)
Definition issue (coll : string) (c : call) : M St reply :=
  fun w =>
    let '(r, s') := driver_call coll c (heap w) (store w) in
    (Normal r,
     {| heap := heap w; store := s'; now := now w;
        trace := trace w ++ [Call coll c] |}).

(** [cursor.count()] and [cursor.toArray()] *)
Definition cursor_count (cursor : Cursor) : M St reply :=
  issue (cur_collection cursor) (CursorCount cursor).

Definition cursor_toArray (cursor : Cursor) : M St reply :=
  issue (cur_collection cursor) (CursorToArray cursor).

Definition new_FindCursorChain (collection : option string)
    (filter fields : value) : FindCursorChain St :=
  {| ch_collection := collection; ch_filter := filter; ch_fields := fields;
     ch_sort := VUndefined; ch_limit := None; ch_offset := None;
     ch_onExec := None |}.

Definition chain_sort (sort : value) (ch : FindCursorChain St)
  : FindCursorChain St :=
  {| ch_collection := ch_collection ch; ch_filter := ch_filter ch;
     ch_fields := ch_fields ch; ch_sort := sort; ch_limit := ch_limit ch;
     ch_offset := ch_offset ch; ch_onExec := ch_onExec ch |}.

Definition chain_limit (limit : nat) (ch : FindCursorChain St)
  : FindCursorChain St :=
  {| ch_collection := ch_collection ch; ch_filter := ch_filter ch;
     ch_fields := ch_fields ch; ch_sort := ch_sort ch; ch_limit := Some limit;
     ch_offset := ch_offset ch; ch_onExec := ch_onExec ch |}.

Definition chain_offset (offset : nat) (ch : FindCursorChain St)
  : FindCursorChain St :=
  {| ch_collection := ch_collection ch; ch_filter := ch_filter ch;
     ch_fields := ch_fields ch; ch_sort := ch_sort ch; ch_limit := ch_limit ch;
     ch_offset := Some offset; ch_onExec := ch_onExec ch |}.

Definition onExec (hook : Cursor -> string -> M St promise)
    (ch : FindCursorChain St) : FindCursorChain St :=
  {| ch_collection := ch_collection ch; ch_filter := ch_filter ch;
     ch_fields := ch_fields ch; ch_sort := ch_sort ch; ch_limit := ch_limit ch;
     ch_offset := ch_offset ch; ch_onExec := Some hook |}.

(** Steps (2) to (4) of the terminal call, when no hook was registered. *)
Definition count_and_fetch (cursor : Cursor) : M St promise :=
  new_Promise (
    c <- cursor_count cursor ;;
    a <- cursor_toArray cursor ;;
    then_catch (all_settled [c; a])
      (fun data =>
         total <- lift (get_index data 0) ;;
         docs <- lift (get_index data 1) ;;
         ret (Resolved (VObj [("total", total); ("docs", docs)])))
      (fun e => ret (Rejected e))).

(** The terminal call. *)
Definition exec (ch : FindCursorChain St) : M St promise :=
  match ch_collection ch with
  | None => throw (TypeError "Cannot read property 'find' of null")
  | Some coll =>
      let cursor :=
        {| cur_collection := coll; cur_filter := ch_filter ch;
           cur_fields := ch_fields ch; cur_sort := ch_sort ch;
           cur_limit := ch_limit ch; cur_offset := ch_offset ch |} in
      match ch_onExec ch with
      | Some hook => hook cursor (debugMessage cursor)
      | None => count_and_fetch cursor
      end
  end.

End Chain.

(** ** The facade: [class ModelAbstract] *)

(** The object installed by [setDebugger]; the facade only tests that it
    has a [log] member before calling it. *)
Record Debugger : Type := {
  has_log : bool
}.

(** The fields of an instance; [_db] is the [Driver]. *)
Record ModelAbstract : Type := {
  _collectionName : option string;
  _indexes : option (list IndexDecl);
  _collection : option string;
  _debugger : option Debugger
}.

(** [constructor(db)], source lines 21-28. *)
Definition new_ModelAbstract : ModelAbstract :=
  {| _collectionName := None; _indexes := None; _collection := None;
     _debugger := None |}.

(** [setDebugger(__debugger)], lines 35-37. *)
Definition setDebugger (this : ModelAbstract) (__debugger : option Debugger)
  : ModelAbstract :=
  {| _collectionName := _collectionName this; _indexes := _indexes this;
     _collection := _collection this; _debugger := __debugger |}.

Section Facade.
Context `{Runtime} `{ErrorCodes} `{QueryText} {St : Type} `{Driver St}.

(** [init()], lines 44-58: throws, or binds the handle and returns [this]
    (here: the instance with the handle bound). *)
Definition init (this : ModelAbstract) : completion ModelAbstract :=
  match _collectionName this with
  | None =>
      Throw (ModelError "no collection name for model" NO_COLLECTION_NAME)
  | Some name =>
      if String.eqb name "" then
        Throw (ModelError "no collection name for model" NO_COLLECTION_NAME)
      else
        Normal {| _collectionName := _collectionName this;
                  _indexes := _indexes this;
                  _collection := Some name;
                  _debugger := _debugger this |}
  end.

(** [this._collection.method(...)]: a read on [null] throws. *)
Definition on_collection (this : ModelAbstract) (method : string) (c : call)
  : M St reply :=
  match _collection this with
  | None =>
      throw (TypeError ("Cannot read property '" +:+ method +:+ "' of null"))
  | Some coll => issue coll c
  end.

(** Reads and writes on an object of the caller's heap (a location the heap
    does not hold reads as an object with no property). *)
Definition read_prop (o : loc) (k : string) : M St value :=
  fun w => (Normal (lookup_prop k (heap w !!! o)), w).

Definition write_prop (o : loc) (k : string) (v : value) : M St unit :=
  fun w =>
    (Normal tt,
     {| heap := <[o := assign_prop k v (heap w !!! o)]> (heap w);
        store := store w; now := now w; trace := trace w |}).

Definition read_obj (o : loc) : M St value :=
  fun w => (Normal (VObj (heap w !!! o)), w).

(** [_logDebug(data)], lines 410-417. *)
Definition _logDebug (this : ModelAbstract) (data : InstrRecord) : M St unit :=
  match _debugger this with
  | None => ret tt
  | Some dbg => if has_log dbg then emit (Log data) else ret tt
  end.

(** [_createTimer(name)], lines 425-433. *)
Definition _createTimer (this : ModelAbstract) (name : string)
  : M St (DebugTimer St) :=
  timer <- new_DebugTimer "mongo" name ;;
  ret (onStop (fun data => _logDebug this data) timer).

(** [_json(data)], lines 441-443. *)
Definition _json (data : value) : string := JSON_stringify data.

(** [`${this._collectionName}`] *)
Definition collectionName_text (this : ModelAbstract) : string :=
  match _collectionName this with
  | None => "null"
  | Some name => name
  end.

Definition array_items (v : value) : list value :=
  match v with
  | VArr items => items
  | _ => []
  end.

(** [ensureIndexes(options)], lines 60-113. *)
Definition ensureIndexes (this : ModelAbstract) (options : value)
  : M St promise :=
  new_Promise (
    match _indexes this with
    | None => ret (Resolved (VArr []))
    | Some indexes =>
        existsPromises <-
          each indexes
            (fun index _ existsPromises =>
               p <- on_collection this "indexExists"
                      (IndexExists (opt_name (idx_options index))) ;;
               ret (existsPromises ++ [p]))
            [] ;;
        then_catch (all_settled existsPromises)
          (fun data =>
             createPromises <-
               each (array_items data)
                 (fun exists_ key createPromises =>
                    if negb (truthy exists_) then
                      match indexes !! key with
                      | None =>
                          throw (TypeError
                                   "Cannot read property 'fields' of undefined")
                      | Some decl =>
                          p <- on_collection this "createIndex"
                                 (CreateIndex (idx_fields decl)
                                              (idx_options decl)) ;;
                          ret (createPromises ++ [p])
                      end
                    else ret createPromises)
                 [] ;;
             if Nat.eqb (length createPromises) 0 then ret (Resolved (VArr []))
             else
               then_catch (all_settled createPromises)
                 (fun data => ret (Resolved data))
                 (fun error => ret (Rejected error)))
          (fun error => ret (Rejected error))
    end).

(** [insertOne(data, options)], lines 121-165; [data] is an object of the
    caller. *)
Definition insertOne (this : ModelAbstract) (data : loc) (options : value)
  : M St promise :=
  new_Promise (
    timer <- _createTimer this "insertOne" ;;
    id <- read_prop data "id" ;;
    (if truthy id then write_prop data "_id" id else ret tt) ;;;
    d <- read_obj data ;;
    let timer :=
      set_message
        ("db." +:+ collectionName_text this +:+ ".insert(" +:+ _json d +:+ ")")
        timer in
    r <- on_collection this "insertOne" (InsertOne data) ;;
    then_catch r
      (fun result =>
         stop timer ;;;
         ops <- lift (get result "ops") ;;
         if truthy ops then
           first <- lift (get_index ops 0) ;;
           if truthy first then ret (Resolved first) else ret (Resolved VNull)
         else ret (Resolved VNull))
      (fun error =>
         if truthy error then
           code <- lift (get error "code") ;;
           e <- (if truthy code && loose_eq_num code 11000 then
                   id <- read_prop data "id" ;;
                   ret (ModelError
                          ("record with id = " +:+ to_string id +:+
                           " already exists")
                          ALREADY_EXISTS)
                 else ret error) ;;
           msg <- lift (get e "message") ;;
           error_ timer msg ;;;
           ret (Rejected e)
         else ret Pending)).

(** [findOneAndUpdate(filter, update, options)], lines 174-204; [options]
    is absent or an object of the caller.  The driver receives the content of the options
    object, the caller's own or the fresh one. *)
Definition findOneAndUpdate (this : ModelAbstract) (filter update : value)
    (options : option loc) : M St promise :=
  timer <- _createTimer this "findOneAndUpdate" ;;
  opts <-
    match options with
    | None => ret (VObj [("returnOriginal", VBool false)])
    | Some o =>
        returnOriginal <- read_prop o "returnOriginal" ;;
        match returnOriginal with
        | VUndefined => write_prop o "returnOriginal" (VBool false)
        | _ => ret tt
        end ;;;
        read_obj o
    end ;;
  let timer :=
    set_message
      ("filter=" +:+ _json filter +:+ " update=" +:+ _json update +:+
       " options=" +:+ _json opts)
      timer in
  new_Promise (
    r <- on_collection this "findOneAndUpdate"
           (FindOneAndUpdate filter update opts) ;;
    then_catch r
      (fun data =>
         stop timer ;;;
         ret (Resolved data))
      (fun error =>
         msg <- lift (get error "message") ;;
         error_ timer msg ;;;
         ret (Rejected error))).

(** [findOne(query, options)], lines 214-234. *)
Definition findOne (this : ModelAbstract) (query options : value)
  : M St promise :=
  new_Promise (
    timer <- _createTimer this "findOne" ;;
    let timer :=
      set_message
        ("query=" +:+ _json query +:+ " options=" +:+ _json options) timer in
    r <- on_collection this "findOne" (FindOne query options) ;;
    then_catch r
      (fun doc =>
         stop timer ;;;
         if truthy doc then ret (Resolved doc) else ret (Resolved VNull))
      (fun error =>
         msg <- lift (get error "message") ;;
         error_ timer msg ;;;
         ret (Rejected error))).

(** [findOneById(id, options)], lines 242-264. *)
Definition findOneById (this : ModelAbstract) (id options : value)
  : M St promise :=
  new_Promise (
    timer <- _createTimer this "findOneById" ;;
    let timer :=
      set_message ("id=" +:+ _json id +:+ " options=" +:+ _json options) timer in
    r <- on_collection this "findOne" (FindOne (VObj [("_id", id)]) VUndefined) ;;
    then_catch r
      (fun doc =>
         stop timer ;;;
         if truthy doc then ret (Resolved doc) else ret (Resolved VNull))
      (fun error =>
         msg <- lift (get error "message") ;;
         error_ timer msg ;;;
         ret (Rejected error))).

(** The hook [find] registers with [chain.onExec], lines 282-306. *)
Definition find_onExec (timer : DebugTimer St) (cursor : Cursor)
    (debugMessage : string) : M St promise :=
  let timer := set_message debugMessage timer in
  new_Promise (
    stop timer ;;;
    c <- cursor_count cursor ;;
    a <- cursor_toArray cursor ;;
    then_catch (all_settled [c; a])
      (fun data =>
         total <- lift (get_index data 0) ;;
         docs <- lift (get_index data 1) ;;
         ret (Resolved (VObj [("total", total); ("docs", docs)])))
      (fun error =>
         msg <- lift (get error "message") ;;
         error_ timer msg ;;;
         ret (Rejected error))).

(** [find(filter, fields, sort, limit, offset, options)], lines 276-309:
    the last four arguments are not used. *)
Definition find (this : ModelAbstract)
    (filter fields sort limit offset options : value)
  : M St (FindCursorChain St) :=
  timer <- _createTimer this "find" ;;
  let chain := new_FindCursorChain (_collection this) filter fields in
  ret (onExec (find_onExec timer) chain).

(** [updateOne(filter, data, options)], lines 318-335. *)
Definition updateOne (this : ModelAbstract) (filter data options : value)
  : M St promise :=
  new_Promise (
    timer <- _createTimer this "updateOne" ;;
    let timer :=
      set_message
        ("filter=" +:+ _json filter +:+ " data=" +:+ _json data +:+
         " options=" +:+ _json options)
        timer in
    r <- on_collection this "update" (Update filter data (VObj [])) ;;
    then_catch r
      (fun num =>
         stop timer ;;;
         ret (Resolved data))
      (fun error =>
         msg <- lift (get error "message") ;;
         error_ timer msg ;;;
         ret (Rejected error))).

(** [removeOne(filter, options)], lines 346-362; its timer carries the name
    ['findOne']. *)
Definition removeOne (this : ModelAbstract) (filter options : value)
  : M St promise :=
  timer <- _createTimer this "findOne" ;;
  let timer :=
    set_message
      ("filter=" +:+ _json filter +:+ " options=" +:+ _json options) timer in
  new_Promise (
    r <- on_collection this "remove" (Remove filter (VObj [])) ;;
    then_catch r
      (fun count =>
         stop timer ;;;
         ret (Resolved count))
      (fun error =>
         msg <- lift (get error "message") ;;
         error_ timer msg ;;;
         ret (Rejected error))).

(** [count(filter, options)], lines 371-389. *)
Definition count (this : ModelAbstract) (filter options : value)
  : M St promise :=
  timer <- _createTimer this "count" ;;
  let timer :=
    set_message
      ("filter=" +:+ _json filter +:+ " options=" +:+ _json options) timer in
  new_Promise (
    r <- on_collection this "count" (Count filter) ;;
    then_catch r
      (fun data =>
         stop timer ;;;
         ret (Resolved data))
      (fun error =>
         msg <- lift (get error "message") ;;
         error_ timer msg ;;;
         ret (Rejected error))).

(** [aggregate(pipeline, options)], lines 398-403: a synchronous call; the
    driver's answer is the cursor it returns, or what it throws. *)
Definition aggregate (this : ModelAbstract) (pipeline options : value)
  : M St value :=
  timer <- _createTimer this "aggregate" ;;
  let timer :=
    set_message
      ("pipeline=" +:+ _json pipeline +:+ " options=" +:+ _json options)
      timer in
  stop timer ;;;
  r <- on_collection this "aggregate" (Aggregate pipeline options) ;;
  match r with
  | Fulfils cursor => ret cursor
  | Rejects e => throw e
  end.

End Facade.

(** ** A reference store

    The driver is outside the repository.  Where a property of the facade
    depends on what the store does with a call (an index, once created,
    exists; a count ignores the page window; [returnOriginal: false] asks
    for the updated document), the store is this in-memory collection.  The
    query and update languages stay abstract. *)

Class QueryLanguage : Type := {
  (** does the document satisfy the filter *)
  matches : value -> value -> bool;
  (** the document restricted to the projection *)
  project : value -> value -> value;
  (** the documents in the requested order *)
  order_by : value -> list value -> list value;
  order_by_perm : forall sort docs, order_by sort docs ≡ₚ docs;
  (** the document after the update *)
  apply_update : value -> value -> value;
  (** the cursor an aggregation pipeline yields *)
  run_pipeline : value -> list value -> value
}.

Record MemStore : Type := {
  ms_docs : list value;
  ms_indexes : list string
}.

(** Structural equality of values, used to compare primary keys. *)
Fixpoint value_eqb (a b : value) : bool :=
  match a, b with
  | VUndefined, VUndefined => true
  | VNull, VNull => true
  | VBool x, VBool y => Bool.eqb x y
  | VNum x, VNum y => x =? y
  | VStr x, VStr y => String.eqb x y
  | VArr xs, VArr ys =>
      (fix go (xs ys : list value) : bool :=
         match xs, ys with
         | [], [] => true
         | x :: xs', y :: ys' => value_eqb x y && go xs' ys'
         | _, _ => false
         end) xs ys
  | VObj xs, VObj ys =>
      (fix go (xs ys : list (string * value)) : bool :=
         match xs, ys with
         | [], [] => true
         | (k, x) :: xs', (k', y) :: ys' =>
             String.eqb k k' && value_eqb x y && go xs' ys'
         | _, _ => false
         end) xs ys
  | _, _ => false
  end.

Definition primary_key (doc : value) : value :=
  match doc with
  | VObj props => lookup_prop "_id" props
  | _ => VUndefined
  end.

(** The store's duplicate-key failure. *)
Definition duplicate_key_error : value :=
  VObj [("name", VStr "MongoError");
        ("message", VStr "E11000 duplicate key error");
        ("code", VNum 11000)].

(** The first document satisfying [p] is replaced by its image under [f];
    the result names the document before and after. *)
Fixpoint find_and_update (p : value -> bool) (f : value -> value)
    (docs : list value) : option (value * value) * list value :=
  match docs with
  | [] => (None, [])
  | d :: rest =>
      if p d then (Some (d, f d), f d :: rest)
      else
        let '(r, rest') := find_and_update p f rest in
        (r, d :: rest')
  end.

Definition window (limit offset : option nat) (docs : list value)
  : list value :=
  let skipped := match offset with Some n => drop n docs | None => docs end in
  match limit with Some n => take n skipped | None => skipped end.

Section ReferenceStore.
Context `{QueryLanguage}.

(** The documents a filter selects, in stored order. *)
Definition matching (flt : value) (docs : list value) : list value :=
  List.filter (matches flt) docs.

Definition with_docs (s : MemStore) (docs : list value) : MemStore :=
  {| ms_docs := docs; ms_indexes := ms_indexes s |}.

Definition mem_call (coll : string) (c : call)
    (h : gmap loc (list (string * value))) (s : MemStore) : reply * MemStore :=
  match c with
  | IndexExists name =>
      (Fulfils (VBool (bool_decide (name ∈ ms_indexes s))), s)
  | CreateIndex fields options =>
      (Fulfils (VStr (opt_name options)),
       {| ms_docs := ms_docs s;
          ms_indexes :=
            if bool_decide (opt_name options ∈ ms_indexes s) then ms_indexes s
            else ms_indexes s ++ [opt_name options] |})
  | InsertOne data =>
      let doc := VObj (h !!! data) in
      let key := primary_key doc in
      if negb (value_eqb key VUndefined)
         && existsb (fun d => value_eqb (primary_key d) key) (ms_docs s)
      then (Rejects duplicate_key_error, s)
      else (Fulfils (VObj [("ops", VArr [doc])]), with_docs s (ms_docs s ++ [doc]))
  | FindOneAndUpdate flt update options =>
      let '(r, docs') :=
        find_and_update (matches flt) (apply_update update) (ms_docs s) in
      match r with
      | None => (Fulfils VNull, s)
      | Some (before, after) =>
          (Fulfils (match get options "returnOriginal" with
                    | Normal (VBool false) => after
                    | _ => before
                    end),
           with_docs s docs')
      end
  | FindOne query options =>
      (Fulfils (default VNull (head (matching query (ms_docs s)))), s)
  | Update flt data options =>
      let '(r, docs') :=
        find_and_update (matches flt) (apply_update data) (ms_docs s) in
      (Fulfils (VNum (match r with Some _ => 1 | None => 0 end)),
       with_docs s docs')
  | Remove flt options =>
      (Fulfils (VNum (Z.of_nat (length (matching flt (ms_docs s))))),
       with_docs s (List.filter (fun d => negb (matches flt d)) (ms_docs s)))
  | Count flt =>
      (Fulfils (VNum (Z.of_nat (length (matching flt (ms_docs s))))), s)
  | Aggregate pipeline options =>
      (Fulfils (run_pipeline pipeline (ms_docs s)), s)
  | CursorCount c =>
      (Fulfils (VNum (Z.of_nat (length (matching (cur_filter c) (ms_docs s))))),
       s)
  | CursorToArray c =>
      (Fulfils (VArr (map (project (cur_fields c))
                        (window (cur_limit c) (cur_offset c)
                           (order_by (cur_sort c)
                              (matching (cur_filter c) (ms_docs s)))))),
       s)
  end.

#[export] Instance MemDriver : Driver MemStore := {| driver_call := mem_call |}.

End ReferenceStore.

(** ** Stand-ins used to run the facade on concrete inputs *)

(** A driver that answers from a script, whatever the call: the next answer
    of the list, then [undefined] for ever. *)
#[export] Instance ScriptedDriver : Driver (list reply) := {|
  driver_call _ _ _ script :=
    match script with
    | [] => (Fulfils VUndefined, [])
    | r :: rest => (r, rest)
    end
|}.

(** A runtime whose serializer is ToString and which reads the one numeral
    the facade compares with. *)
Definition sample_runtime : Runtime := {|
  JSON_stringify := to_string;
  StringToNumber s := if String.eqb s "11000" then Some 11000 else None
|}.

Definition sample_codes : ErrorCodes := {|
  NO_COLLECTION_NAME := VStr "NO_COLLECTION_NAME";
  ALREADY_EXISTS := VStr "ALREADY_EXISTS"
|}.

Definition sample_text : QueryText := {|
  debugMessage c := "find(" +:+ to_string (cur_filter c) +:+ ")"
|}.

(** A query language of field equalities: a filter selects the documents
    that carry each of its fields with the same value, an update assigns
    its fields, order and projection leave the documents as stored. *)
Definition fields_of (v : value) : list (string * value) :=
  match v with
  | VObj props => props
  | _ => []
  end.

Definition sample_matches (flt doc : value) : bool :=
  forallb (fun kv => value_eqb (lookup_prop (fst kv) (fields_of doc)) (snd kv))
          (fields_of flt).

Definition sample_update (update doc : value) : value :=
  VObj (fold_left (fun props kv => assign_prop (fst kv) (snd kv) props)
                  (fields_of update) (fields_of doc)).

Definition sample_queries : QueryLanguage := {|
  matches := sample_matches;
  project _ doc := doc;
  order_by _ docs := docs;
  order_by_perm _ docs := Permutation_refl docs;
  apply_update := sample_update;
  run_pipeline _ docs := VArr docs
|}.

Definition empty_world {St : Type} (s : St) : World St :=
  {| heap := ∅; store := s; now := 0%nat; trace := [] |}.

(** A facade as a subclass would set it up, before [init()]. *)
Definition declared (name : string) (indexes : option (list IndexDecl))
  : ModelAbstract :=
  {| _collectionName := Some name; _indexes := indexes; _collection := None;
     _debugger := None |}.

(** The same facade after [init()]. *)
Definition bound (name : string) (indexes : option (list IndexDecl))
  : ModelAbstract :=
  {| _collectionName := Some name; _indexes := indexes;
     _collection := Some name; _debugger := None |}.

(** ** Reading a trace *)

(** The calls issued to the driver, in order. *)
Fixpoint calls_of (t : list event) : list (string * call) :=
  match t with
  | [] => []
  | Call coll c :: rest => (coll, c) :: calls_of rest
  | _ :: rest => calls_of rest
  end.

(** The terminal calls made on timers ([stop] or [error]). *)
Fixpoint terminal_calls (t : list event) : list event :=
  match t with
  | [] => []
  | TimerStop name :: rest => TimerStop name :: terminal_calls rest
  | TimerError name msg :: rest => TimerError name msg :: terminal_calls rest
  | _ :: rest => terminal_calls rest
  end.

(** The records handed to the sink. *)
Fixpoint records_of (t : list event) : list InstrRecord :=
  match t with
  | [] => []
  | Log r :: rest => r :: records_of rest
  | _ :: rest => records_of rest
  end.

(** Is a sink that can log installed? *)
Definition sink_installed (this : ModelAbstract) : bool :=
  match _debugger this with
  | Some dbg => has_log dbg
  | None => false
  end.

(** The single-call operations of the facade that return a promise. *)
Inductive operation : Type :=
| OpInsertOne (data : loc) (options : value)
| OpFindOneAndUpdate (filter update : value) (options : option loc)
| OpFindOne (query options : value)
| OpFindOneById (id options : value)
| OpUpdateOne (filter data options : value)
| OpRemoveOne (filter options : value)
| OpCount (filter options : value).

Section Operations.
Context `{Runtime} `{ErrorCodes} `{QueryText} {St : Type} `{Driver St}.

Definition run_operation (this : ModelAbstract) (op : operation)
  : M St promise :=
  match op with
  | OpInsertOne data options => insertOne this data options
  | OpFindOneAndUpdate flt update options =>
      findOneAndUpdate this flt update options
  | OpFindOne query options => findOne this query options
  | OpFindOneById id options => findOneById this id options
  | OpUpdateOne flt data options => updateOne this flt data options
  | OpRemoveOne flt options => removeOne this flt options
  | OpCount flt options => count this flt options
  end.

(** The driver method an operation calls on the handle. *)
Definition method_of (op : operation) : string :=
  match op with
  | OpInsertOne _ _ => "insertOne"
  | OpFindOneAndUpdate _ _ _ => "findOneAndUpdate"
  | OpFindOne _ _ => "findOne"
  | OpFindOneById _ _ => "findOne"
  | OpUpdateOne _ _ _ => "update"
  | OpRemoveOne _ _ => "remove"
  | OpCount _ _ => "count"
  end.

End Operations.

(** The caller's heap once [insertOne] has run [if (data.id) data._id =
    data.id]. *)
Definition copy_id (data : loc) (h : gmap loc (list (string * value)))
  : gmap loc (list (string * value)) :=
  let id := lookup_prop "id" (h !!! data) in
  if truthy id then <[data := assign_prop "_id" id (h !!! data)]> h else h.

(** The test [error.code && error.code == 11000] of [insertOne]. *)
Definition is_conflict `{Runtime} (error : value) : bool :=
  match get error "code" with
  | Normal code => truthy code && loose_eq_num code 11000
  | Throw _ => false
  end.

(** The reconciliation key of a declaration: [index.options.name]. *)
Definition index_name (decl : IndexDecl) : string :=
  opt_name (idx_options decl).

(** The existence check and the creation call for a declaration. *)
Definition check_of (decl : IndexDecl) : call :=
  IndexExists (opt_name (idx_options decl)).

Definition creation_of (decl : IndexDecl) : call :=
  CreateIndex (idx_fields decl) (idx_options decl).

(** The declarations whose existence check answered with a falsy value. *)
Definition missing_of (flags : list value) (indexes : list IndexDecl)
  : list IndexDecl :=
  map snd (List.filter (fun p => negb (truthy (fst p))) (zip flags indexes)).

(** What the driver answers to a sequence of calls issued one after the
    other on a collection, and the state it ends in. *)
Fixpoint answers {St : Type} `{Driver St} (coll : string) (cs : list call)
    (h : gmap loc (list (string * value))) (s : St) : list reply * St :=
  match cs with
  | [] => ([], s)
  | c :: rest =>
      let '(r, s1) := driver_call coll c h s in
      let '(rs, s2) := answers coll rest h s1 in
      (r :: rs, s2)
  end.

(** ** Sample data *)

Definition by_email : IndexDecl :=
  {| idx_fields := VObj [("email", VNum 1)];
     idx_options := {| opt_name := "by_email";
                       opt_rest := [("unique", VBool true)] |} |}.

Definition by_age : IndexDecl :=
  {| idx_fields := VObj [("age", VNum (-1))];
     idx_options := {| opt_name := "by_age"; opt_rest := [] |} |}.

(** A caller's heap holding one object at location 1. *)
Definition heap_with (props : list (string * value))
  : gmap loc (list (string * value)) :=
  {[ 1%positive := props ]}.

Definition world_with {St : Type} (props : list (string * value)) (s : St)
  : World St :=
  {| heap := heap_with props; store := s; now := 0%nat; trace := [] |}.

(** A call fails synchronously with a given code: it throws, and the thrown
    value carries the code. *)
Definition fails_synchronously_with {A : Type} (code : value)
    (c : completion A) : Prop :=
  exists e, c = Throw e /\ get e "code" = Normal code.

(** No collection name was declared: [!this._collectionName]. *)
Definition name_undeclared (this : ModelAbstract) : Prop :=
  _collectionName this = None \/ _collectionName this = Some "".

(** The caller asks [findOneAndUpdate] for the document as it was before
    the update: the options carry a [returnOriginal] that is set and is not
    [false].  (The driver returns the updated document for
    [returnOriginal: false] only.) *)
Definition requests_original (h : gmap loc (list (string * value)))
    (options : option loc) : bool :=
  match options with
  | None => false
  | Some o =>
      match lookup_prop "returnOriginal" (h !!! o) with
      | VUndefined | VBool false => false
      | _ => true
      end
  end.

(** The chain after the caller has set (or left unset) the sort order, the
    limit and the offset. *)
Definition with_page {St : Type} (sort : option value)
    (limit offset : option nat) (ch : FindCursorChain St)
  : FindCursorChain St :=
  let ch := match sort with Some s => chain_sort s ch | None => ch end in
  let ch := match limit with Some n => chain_limit n ch | None => ch end in
  match offset with Some n => chain_offset n ch | None => ch end.

(** Ten users, seven of them active. *)
Definition user (n : Z) (active : bool) : value :=
  VObj [("_id", VNum n); ("active", VBool active)].

Definition ten_active : MemStore :=
  {| ms_docs := [user 1 true; user 2 true; user 3 false; user 4 true;
                 user 5 true; user 6 true; user 7 false; user 8 true;
                 user 9 true; user 10 true; user 11 true; user 12 false;
                 user 13 true];
     ms_indexes := [] |}.

Definition nullish (v : value) : bool :=
  match v with
  | VUndefined | VNull => true
  | _ => false
  end.

(** The driver's contract for [insertOne]: a fulfilled insert carries a
    result object, never [null] or [undefined]. *)
Definition insert_results_are_objects {St : Type} `{Driver St}
    (coll : string) : Prop :=
  forall data h (s : St) v,
    fst (driver_call coll (InsertOne data) h s) = Fulfils v -> nullish v = false.

(** ** The request layer: [class ApiAbstract] ([Api/Abstract.js]) *)

(** lodash's [_.keys]: the own enumerable property names; the indices of an
    array or of a string; none for a number or a boolean. *)
Definition keys (v : value) : list string :=
  match v with
  | VUndefined | VNull | VBool _ | VNum _ => []
  | VStr s => map (fun i : nat => pretty i) (seq 0 (String.length s))
  | VArr items => map (fun i : nat => pretty i) (seq 0 (length items))
  | VObj props => map fst props
  end.

(** The own enumerable properties lodash copies out of a value: those of an
    object, the indexed elements of an array or of a string. *)
Definition own_props (v : value) : list (string * value) :=
  match v with
  | VUndefined | VNull | VBool _ | VNum _ => []
  | VStr s =>
      imap (fun i c => (pretty i, VStr (string_of_char c)))
           (String.list_ascii_of_string s)
  | VArr items => imap (fun i x => (pretty i, x)) items
  | VObj props => props
  end.

(** A property name that lodash takes as a name and never as a path: its
    [isKey] answers [true], whatever the object, for a string that holds
    neither a dot nor an opening bracket.  A name in path syntax (['a.b'],
    ['a[0]']) is read differently from one lodash release to the next and
    is not a value of this type. *)
Definition is_prop_name (s : string) : bool :=
  forallb (fun c => negb (String.eqb (string_of_char c) "."
                        || String.eqb (string_of_char c) "["))
          (String.list_ascii_of_string s).

Record PropName : Type := {
  pn_name : string;
  pn_plain : is_prop_name pn_name = true
}.

(** lodash's [_.omit(object, names)] for property names: a new plain
    object with the own properties of [object] whose name is not listed;
    the empty object for [null] and [undefined]. *)
Definition omit (object : value) (names : list PropName) : value :=
  VObj (List.filter
          (fun kv => negb (existsb (String.eqb (fst kv)) (map pn_name names)))
          (own_props object)).

(** The schema validator, an external collaborator: for data, a schema and
    options it answers, through its callback, with the details of the
    violations or with the data as converted. *)
Inductive joi_answer : Type :=
| JoiInvalid (details : list value)
| JoiValid (converted : value).

Class Joi : Type := {
  joi_validate : value -> value -> value -> joi_answer
}.

(** The constant of the request layer's [./ErrorCodes]. *)
Class ApiErrorCodes : Type := {
  INVALID_DATA : value
}.

(** Modelled from the spec: the class [ApiError] of [Api/Error], built as
    [new ApiError(message)]; the spec gives a normalized error the shape
    [{message, code, list?}], and [_validate] assigns [code] and [list]
    itself. *)
Definition ApiError (msg : string) : list (string * value) :=
  [("message", VStr msg)].

(** The fields of an instance that the methods read; the system fields,
    once a subclass declares them, are a list of property names. *)
Record ApiAbstract : Type := {
  _systemFields : option (list PropName)
}.

(** [constructor(models, api)], lines 28-34. *)
Definition new_ApiAbstract : ApiAbstract := {| _systemFields := None |}.

(** The loop of [_validate] over [err.details], lines 68-70:
    [list.push({message: e.message, path: e.path, type: e.type})]. *)
Fixpoint collect_details (details : list value) (list_ : list value)
  : completion (list value) :=
  match details with
  | [] => Normal list_
  | e :: rest =>
      match get e "message", get e "path", get e "type" with
      | Normal m, Normal p, Normal t =>
          collect_details rest
            (list_ ++ [VObj [("message", m); ("path", p); ("type", t)]])
      | Throw err, _, _ | _, Throw err, _ | _, _, Throw err => Throw err
      end
  end.

Section Api.
Context `{Joi} `{ApiErrorCodes}.

(** [_validate(data, schema, options)], lines 46-85.  The validator calls
    back before [joi.validate] returns, so a throw in the callback is a
    throw in the executor. *)
Definition _validate (data schema options : value) : promise :=
  let options := if truthy options then options else VObj [] in
  let joiOptions := [("convert", VBool true); ("abortEarly", VBool false)] in
  match get options "allowUnknown" with
  | Throw e => Rejected e
  | Normal allowUnknown =>
      let joiOptions :=
        if truthy allowUnknown
        then assign_prop "allowUnknown" allowUnknown joiOptions
        else joiOptions in
      match joi_validate data schema (VObj joiOptions) with
      | JoiInvalid details =>
          match collect_details details [] with
          | Throw e => Rejected e
          | Normal list_ =>
              let e := ApiError "invalid data" in
              let e := assign_prop "code" INVALID_DATA e in
              let e := assign_prop "list" (VArr list_) e in
              Rejected (VObj e)
          end
      | JoiValid data => Resolved data
      end
  end.

(** [validate(data, schema, options)], lines 87-89. *)
Definition validate (data schema options : value) : promise :=
  _validate data schema options.

End Api.

(** [_isEmptyData(data)], lines 97-103. *)
Definition _isEmptyData (data : value) : bool :=
  if negb (truthy data) then false
  else if Nat.eqb (length (keys data)) 0 then true else false.

(** [clearSystemFields(data)], lines 107-114. *)
Definition clearSystemFields (this : ApiAbstract) (data : value) : value :=
  match _systemFields this with
  | None => data
  | Some fields => omit data fields
  end.

(** A validator that accepts objects carrying a string [name] and reports
    one violation otherwise. *)
Definition sample_joi : Joi := {|
  joi_validate data schema options :=
    match get data "name" with
    | Normal (VStr _) => JoiValid data
    | _ =>
        JoiInvalid [VObj [("message", VStr "name is required");
                          ("path", VStr "name");
                          ("type", VStr "any.required");
                          ("context", VObj [("key", VStr "name")])]]
    end
|}.

(** The system fields of a sample subclass. *)
Definition sample_system_fields : list PropName :=
  [ {| pn_name := "_id"; pn_plain := eq_refl |};
    {| pn_name := "password"; pn_plain := eq_refl |} ].

Definition sample_api_codes : ApiErrorCodes := {|
  INVALID_DATA := VStr "INVALID_DATA"
|}.

(** [v.k] where the read cannot throw. *)
Definition read (v : value) (k : string) : value :=
  match get v k with
  | Normal x => x
  | Throw _ => VUndefined
  end.

(** What [_validate] keeps of one violation. *)
Definition detail_entry (e : value) : value :=
  VObj [("message", read e "message"); ("path", read e "path");
        ("type", read e "type")].

(** The [allowUnknown] the caller asked for: [options.allowUnknown], where
    falsy options stand for [{}]. *)
Definition requested_allowUnknown (options : value) : value :=
  read (if truthy options then options else VObj []) "allowUnknown".

(** The options the validator is to be called with. *)
Definition validator_options (options : value) : list (string * value) :=
  [("convert", VBool true); ("abortEarly", VBool false)]
  ++ (if truthy (requested_allowUnknown options)
      then [("allowUnknown", requested_allowUnknown options)]
      else []).

(** * Properties *)

(** ** Reasoning about computations *)

Ltac unfold_facade :=
  unfold run_operation, insertOne, findOneAndUpdate, findOne, findOneById,
    updateOne, removeOne, count, aggregate, find_onExec,
    new_Promise, then_catch, run_catch, bind, ret, throw, lift, emit, tick,
    stop, error_, deliver, _createTimer, new_DebugTimer, onStop, set_message,
    _logDebug, read_prop, write_prop, read_obj, on_collection, issue,
    cursor_count, cursor_toArray in *.

Section Computations.
Context {St : Type}.

Lemma bind_normal {A B} (m : M St A) (k : A -> M St B) w a w' :
  m w = (Normal a, w') -> bind m k w = k a w'.
Proof. intros E. unfold bind. by rewrite E. Qed.

Lemma bind_throw {A B} (m : M St A) (k : A -> M St B) w e w' :
  m w = (Throw e, w') -> bind m k w = (Throw e, w').
Proof. intros E. unfold bind. by rewrite E. Qed.

Lemma Promise_all_length rs vs :
  Promise_all rs = inl vs -> length vs = length rs.
Proof.
  revert vs. induction rs as [|[v|e] rs IH]; intros vs Hvs; simpl in Hvs.
  - by inversion Hvs.
  - destruct (Promise_all rs) as [vs'|e]; inversion Hvs; subst.
    simpl. f_equal. by apply IH.
  - discriminate.
Qed.

Lemma lookup_drop_head {A} (l : list A) key d rest :
  drop key l = d :: rest -> l !! key = Some d /\ drop (S key) l = rest.
Proof.
  intros E. split.
  - rewrite <- (Nat.add_0_r key). rewrite <- lookup_drop. by rewrite E.
  - replace (S key) with (key + 1)%nat by lia. rewrite <- drop_drop.
    by rewrite E.
Qed.

End Computations.

(** Case analysis on the innermost scrutinee the goal is stuck on. *)
Ltac case_innermost :=
  match goal with
  | |- context [match ?x with _ => _ end] =>
      lazymatch x with
      | context [match _ with _ => _ end] => fail
      | _ => destruct x eqn:?
      end
  end.

Ltac run_cases := repeat (case_innermost; cbn).

Lemma calls_of_app t u : calls_of (t ++ u) = calls_of t ++ calls_of u.
Proof.
  induction t as [|[] t IH]; simpl; try done. by rewrite IH.
Qed.

Lemma terminal_calls_app t u :
  terminal_calls (t ++ u) = terminal_calls t ++ terminal_calls u.
Proof.
  induction t as [|[] t IH]; simpl; try done; by rewrite IH.
Qed.

Lemma records_of_app t u : records_of (t ++ u) = records_of t ++ records_of u.
Proof.
  induction t as [|[] t IH]; simpl; try done. by rewrite IH.
Qed.

Ltac read_trace :=
  rewrite ?calls_of_app, ?terminal_calls_app, ?records_of_app; cbn;
  rewrite ?app_nil_r.

Lemma get_throw_nullish v k e : get v k = Throw e -> nullish v = true.
Proof. by destruct v. Qed.

Lemma get_index_throw_nullish v i e :
  get_index v i = Throw e -> nullish v = true.
Proof. by destruct v. Qed.

Lemma truthy_not_nullish v : truthy v = true -> nullish v = false.
Proof. by destruct v. Qed.

(** ** Equality of values on the reference store *)

Lemma value_nested_ind (P : value -> Prop) :
  P VUndefined -> P VNull -> (forall b, P (VBool b)) ->
  (forall n, P (VNum n)) -> (forall s, P (VStr s)) ->
  (forall items, Forall P items -> P (VArr items)) ->
  (forall props, Forall (fun kv => P (snd kv)) props -> P (VObj props)) ->
  forall v, P v.
Proof.
  intros Hu Hn Hb Hz Hs Ha Ho.
  fix IH 1.
  intros [| |b|n|s|items|props];
    [exact Hu|exact Hn|apply Hb|apply Hz|apply Hs| |].
  - apply Ha. induction items as [|x rest IHrest]; constructor.
    + apply IH.
    + exact IHrest.
  - apply Ho. induction props as [|[k x] rest IHrest]; constructor.
    + apply IH.
    + exact IHrest.
Qed.

(** [value_eqb] decides equality. *)
Lemma value_eqb_eq a b : value_eqb a b = true <-> a = b.
Proof.
  revert b. induction a as [| |x|x|x|xs IH|xs IH] using value_nested_ind;
    intros [| |y|y|y|ys|ys]; simpl; try (split; [discriminate|congruence]);
    try (split; congruence).
  - rewrite Bool.eqb_true_iff. split; congruence.
  - rewrite Z.eqb_eq. split; congruence.
  - rewrite String.eqb_eq. split; congruence.
  - revert ys. induction IH as [|x xs Hx _ IHxs]; intros [|y ys]; simpl;
      try (split; [discriminate|congruence]); [done|].
    rewrite andb_true_iff, Hx.
    specialize (IHxs ys). split.
    + intros [-> Hgo]. apply IHxs in Hgo. congruence.
    + intros [= -> ->]. split; [done|]. by apply IHxs.
  - revert ys. induction IH as [|[k x] xs Hx _ IHxs]; intros [|[k' y] ys];
      simpl; try (split; [discriminate|congruence]); [done|].
    rewrite !andb_true_iff, String.eqb_eq. cbn in Hx. rewrite Hx.
    specialize (IHxs ys). split.
    + intros [[-> ->] Hgo]. apply IHxs in Hgo. congruence.
    + intros [= -> -> ->]. split; [done|]. by apply IHxs.
Qed.

(** ** [ensureIndexes]: two-phase reconciliation *)

Section EnsureIndexes.
Context `{Runtime} `{ErrorCodes} {St : Type} `{Driver St}.
Variables (this : ModelAbstract) (coll : string).
Hypothesis Hcoll : _collection this = Some coll.

Lemma on_collection_run method c (w : World St) :
  on_collection this method c w =
  (Normal (fst (driver_call coll c (heap w) (store w))),
   {| heap := heap w; store := snd (driver_call coll c (heap w) (store w));
      now := now w; trace := trace w ++ [Call coll c] |}).
Proof.
  unfold on_collection, issue. rewrite Hcoll.
  by destruct (driver_call coll c (heap w) (store w)).
Qed.

Lemma answers_length cs h (s : St) :
  length (fst (answers coll cs h s)) = length cs.
Proof.
  revert s. induction cs as [|c cs IH]; intros s; simpl; [done|].
  destruct (driver_call coll c h s) as [r s1].
  specialize (IH s1). destruct (answers coll cs h s1) as [rs s2].
  simpl in *. by rewrite IH.
Qed.

(** Phase 1: one check per declaration, in declaration order. *)
Lemma each_checks indexes : forall key acc (w : World St),
  each_from key indexes
    (fun index (_ : nat) existsPromises =>
       p <- on_collection this "indexExists"
              (IndexExists (opt_name (idx_options index))) ;;
       ret (existsPromises ++ [p])) acc w
  = (Normal (acc ++ fst (answers coll (map check_of indexes) (heap w) (store w))),
     {| heap := heap w;
        store := snd (answers coll (map check_of indexes) (heap w) (store w));
        now := now w;
        trace := trace w ++ map (Call coll) (map check_of indexes) |}).
Proof.
  induction indexes as [|d rest IH]; intros key acc w.
  - simpl. unfold ret. rewrite !app_nil_r. by destruct w.
  - cbn [each_from].
    erewrite bind_normal; last first.
    { erewrite bind_normal; [|apply on_collection_run]. reflexivity. }
    rewrite IH. cbn [heap store now trace map answers].
    fold (check_of d).
    destruct (driver_call coll (check_of d) (heap w) (store w)) as [r s1].
    cbn [fst snd].
    destruct (answers coll (map check_of rest) (heap w) s1) as [rs s2].
    cbn. by rewrite <- !app_assoc.
Qed.

(** Phase 2: one creation per falsy flag, for the declaration at its key. *)
Lemma each_creations flags : forall key acc (w : World St) indexes,
  (length flags <= length (drop key indexes))%nat ->
  each_from key flags
    (fun exists_ key createPromises =>
       if negb (truthy exists_) then
         match indexes !! key with
         | None =>
             throw (TypeError "Cannot read property 'fields' of undefined")
         | Some decl =>
             p <- on_collection this "createIndex"
                    (CreateIndex (idx_fields decl) (idx_options decl)) ;;
             ret (createPromises ++ [p])
         end
       else ret createPromises) acc w
  = let missing := missing_of flags (drop key indexes) in
    (Normal (acc ++ fst (answers coll (map creation_of missing) (heap w) (store w))),
     {| heap := heap w;
        store := snd (answers coll (map creation_of missing) (heap w) (store w));
        now := now w;
        trace := trace w ++ map (Call coll) (map creation_of missing) |}).
Proof.
  induction flags as [|f flags IH]; intros key acc w indexes Hlen.
  - cbn. unfold ret. rewrite !app_nil_r. by destruct w.
  - destruct (drop key indexes) as [|d rest] eqn:Hdrop; [simpl in Hlen; lia|].
    apply lookup_drop_head in Hdrop as [Hd Hrest].
    cbn [each_from]. unfold missing_of. cbn [zip zip_with List.filter fst snd].
    destruct (truthy f) eqn:Hf; cbn [negb].
    + erewrite bind_normal; [|reflexivity].
      rewrite IH by (rewrite Hrest; simpl in Hlen; lia).
      by rewrite Hrest.
    + rewrite Hd.
      erewrite bind_normal; last first.
      { erewrite bind_normal; [|apply on_collection_run]. reflexivity. }
      rewrite IH by (rewrite Hrest; simpl in Hlen; lia).
      rewrite Hrest. cbn [heap store now trace map answers].
      fold (creation_of d). fold (missing_of flags rest).
      destruct (driver_call coll (creation_of d) (heap w) (store w))
        as [r s1] eqn:E1.
      cbn [fst snd]. cbn in E1 |- *. rewrite ?E1.
      destruct (answers coll (map creation_of (missing_of flags rest))
                  (heap w) s1) as [rs s2].
      cbn. by rewrite <- !app_assoc.
Qed.

Lemma missing_of_all_exist flags indexes :
  Forall (fun f => truthy f = true) flags -> missing_of flags indexes = [].
Proof.
  intros Hall. revert indexes.
  induction Hall as [|f flags Hf _ IH]; intros [|d rest]; try done.
  unfold missing_of in *. cbn. rewrite Hf. cbn. apply IH.
Qed.

(** What [ensureIndexes] does once every existence check has answered. *)
Lemma ensureIndexes_run options (w : World St) indexes checks s1 flags :
  _indexes this = Some indexes ->
  answers coll (map check_of indexes) (heap w) (store w) = (checks, s1) ->
  Promise_all checks = inl flags ->
  let missing := missing_of flags indexes in
  let created := answers coll (map creation_of missing) (heap w) s1 in
  ensureIndexes this options w =
  (Normal (match missing with
           | [] => Resolved (VArr [])
           | _ :: _ =>
               match Promise_all (fst created) with
               | inl data => Resolved (VArr data)
               | inr e => Rejected e
               end
           end),
   {| heap := heap w; store := snd created;
      now := (match missing with [] => 1 | _ :: _ => 2 end + now w)%nat;
      trace := trace w ++ map (Call coll) (map check_of indexes)
                       ++ map (Call coll) (map creation_of missing) |}).
Proof.
  intros Hidx Hchecks Hflags missing created.
  assert (Hlen : length flags = length indexes).
  { apply Promise_all_length in Hflags. rewrite Hflags.
    pose proof (answers_length (map check_of indexes) (heap w) (store w)) as L.
    rewrite Hchecks in L. simpl in L. by rewrite L, length_map. }
  unfold ensureIndexes, new_Promise. rewrite Hidx.
  erewrite bind_normal; [|apply each_checks].
  rewrite Hchecks. cbn [fst snd app].
  unfold then_catch at 1, all_settled at 1. rewrite Hflags.
  unfold bind at 1, tick at 1. cbn [heap store now trace array_items].
  erewrite bind_normal; last first.
  { unfold each. apply each_creations. rewrite drop_0. lia. }
  rewrite drop_0. cbn [heap store now trace app].
  fold missing. fold created.
  pose proof (answers_length (map creation_of missing) (heap w) s1) as L.
  fold created in L. rewrite length_map in L. rewrite L.
  destruct missing as [|d rest]; cbn [length Nat.eqb].
  - unfold ret. cbn. by rewrite !app_nil_r.
  - unfold then_catch, all_settled, bind, tick, run_catch, ret.
    cbn [heap store now trace].
    destruct (Promise_all (fst created)) as [data|e]; cbn; by rewrite app_assoc.
Qed.

(** A check failure stops the reconciliation before phase 2. *)
Lemma ensureIndexes_check_failure options (w : World St) indexes checks s1 e :
  _indexes this = Some indexes ->
  answers coll (map check_of indexes) (heap w) (store w) = (checks, s1) ->
  Promise_all checks = inr e ->
  ensureIndexes this options w =
  (Normal (Rejected e),
   {| heap := heap w; store := s1; now := S (now w);
      trace := trace w ++ map (Call coll) (map check_of indexes) |}).
Proof.
  intros Hidx Hchecks Hfail.
  unfold ensureIndexes, new_Promise. rewrite Hidx.
  erewrite bind_normal; [|apply each_checks].
  rewrite Hchecks. cbn [fst snd app].
  unfold then_catch, all_settled. rewrite Hfail.
  unfold bind, tick, run_catch, ret. by cbn.
Qed.

(** Whatever the store answers, [ensureIndexes] adds nothing but calls to
    the trace. *)
Lemma ensureIndexes_only_calls options (w : World St) :
  exists calls,
    trace (snd (ensureIndexes this options w)) =
      trace w ++ map (Call coll) calls.
Proof.
  destruct (_indexes this) as [indexes|] eqn:Hidx.
  - destruct (answers coll (map check_of indexes) (heap w) (store w))
      as [checks s1] eqn:Hchecks.
    destruct (Promise_all checks) as [flags|e] eqn:Hflags.
    + rewrite (ensureIndexes_run options w indexes checks s1 flags
                 Hidx Hchecks Hflags).
      eexists. cbn [snd trace]. by rewrite <- map_app.
    + rewrite (ensureIndexes_check_failure options w indexes checks s1 e
                 Hidx Hchecks Hflags).
      by eexists.
  - exists []. unfold ensureIndexes, new_Promise. rewrite Hidx. cbn.
    by rewrite app_nil_r.
Qed.

(** The declarations selected for creation are those at the positions of
    the falsy flags. *)
Lemma elem_of_missing_of flags indexes d :
  d ∈ missing_of flags indexes <->
  exists i f, flags !! i = Some f /\ indexes !! i = Some d /\ truthy f = false.
Proof.
  unfold missing_of. revert indexes.
  induction flags as [|f flags IH]; intros [|d' rest]; cbn.
  - split; [intros Hin; by inversion Hin|]. by intros (i & f & Hf & _).
  - split; [intros Hin; by inversion Hin|]. by intros (i & f & Hf & _).
  - split; [intros Hin; by inversion Hin|]. by intros (i & f' & _ & Hd & _).
  - destruct (truthy f) eqn:Hf; cbn.
    + rewrite IH. split.
      * intros (i & f' & ? & ? & ?). by exists (S i), f'.
      * intros ([|i] & f' & Hf' & Hd & Ht); cbn in *; simplify_eq;
          [congruence|]. by exists i, f'.
    + rewrite elem_of_cons, IH. split.
      * intros [->|(i & f' & ? & ? & ?)]; [by exists 0%nat, f|].
        by exists (S i), f'.
      * intros ([|i] & f' & Hf' & Hd & Ht); cbn in *; simplify_eq;
          [by left|]. right. by exists i, f'.
Qed.

(** C1. On a bound facade, for the declared index sequence (none when
    [_indexes] is unset): [ensureIndexes] issues one existence check per
    declaration, in order and before any creation call, then one creation
    call for each declaration whose check answered falsy and for no other
    (and none at all if a check failed); it waits once for all the checks
    and once for all the creations.  Once the checks have answered it
    resolves with an empty array when nothing is declared or nothing is
    missing; and when every index exists, the state a second consecutive
    invocation finds, it issues no creation call. *)
Theorem ensureIndexes_reconciles options (w : World St) :
  let indexes := default [] (_indexes this) in
  let checks := fst (answers coll (map check_of indexes) (heap w) (store w)) in
  let missing :=
    match Promise_all checks with
    | inl flags => missing_of flags indexes
    | inr _ => []
    end in
  let run := ensureIndexes this options w in
  trace (snd run) =
    trace w ++ map (Call coll) (map check_of indexes ++ map creation_of missing)
  /\ (forall flags, Promise_all checks = inl flags ->
      indexes = [] \/ missing = [] ->
      fst run = Normal (Resolved (VArr [])))
  /\ (forall flags, Promise_all checks = inl flags ->
      Forall (fun f => truthy f = true) flags ->
      fst run = Normal (Resolved (VArr [])) /\
      trace (snd run) = trace w ++ map (Call coll) (map check_of indexes))
  /\ (forall e, Promise_all checks = inr e -> fst run = Normal (Rejected e))
  /\ now (snd run) =
       (now w + match _indexes this with
                | None => 0
                | Some _ => match missing with [] => 1 | _ :: _ => 2 end
                end)%nat.
Proof.
  intros indexes checks missing run.
  destruct (answers coll (map check_of indexes) (heap w) (store w))
    as [checks' s1] eqn:Hchecks.
  cbn [fst] in checks. subst checks.
  destruct (_indexes this) as [declared|] eqn:Hidx.
  - cbn [default from_option id] in indexes. subst indexes.
    destruct (Promise_all checks') as [flags|e] eqn:Hflags.
    + pose proof (ensureIndexes_run options w declared checks' s1 flags
                    Hidx Hchecks Hflags) as Hrun.
      cbv zeta in Hrun. fold missing in Hrun. subst run.
      rewrite Hrun. cbn [fst snd trace now].
      split; [by rewrite map_app|].
      assert (Hempty : missing = [] ->
                Normal (match missing with
                        | [] => Resolved (VArr [])
                        | _ :: _ =>
                            match Promise_all
                                    (fst (answers coll (map creation_of missing)
                                            (heap w) s1)) with
                            | inl data => Resolved (VArr data)
                            | inr e => Rejected e
                            end
                        end) = Normal (Resolved (VArr []))).
      { by intros ->. }
      split; [|split; [|split; [done|destruct missing; lia]]].
      * intros _ _ [Hnone|Hmiss]; apply Hempty; [|exact Hmiss].
        subst missing. rewrite Hnone. unfold missing_of.
        by rewrite zip_with_nil_r.
      * intros flags' [= <-] Hall.
        pose proof (missing_of_all_exist flags declared Hall) as Hmiss.
        fold missing in Hmiss. split; [by apply Hempty|].
        rewrite Hmiss. cbn. by rewrite app_nil_r.
    + pose proof (ensureIndexes_check_failure options w declared checks' s1 e
                    Hidx Hchecks Hflags) as Hrun.
      subst run missing. rewrite Hrun. cbn [fst snd trace map now].
      rewrite app_nil_r. split; [done|]. split; [done|].
      split; [done|]. split; [by intros e' [= <-]|lia].
  - cbn in indexes. subst indexes. cbn in Hchecks. simplify_eq.
    subst run missing. unfold ensureIndexes, new_Promise. rewrite Hidx. cbn.
    rewrite app_nil_r. repeat split; try done; lia.
Qed.

End EnsureIndexes.

Lemma ensureIndexes_reconciles_witness :
  let this := bound "users" (Some [by_email; by_age]) in
  let w := empty_world [Fulfils (VBool true); Fulfils (VBool false);
                        Fulfils (VStr "by_age")] in
  let run := @ensureIndexes _ ScriptedDriver this VUndefined w in
  trace (snd run) =
    [Call "users" (IndexExists "by_email"); Call "users" (IndexExists "by_age");
     Call "users" (CreateIndex (VObj [("age", VNum (-1))])
                               {| opt_name := "by_age"; opt_rest := [] |})]
  /\ fst run = Normal (Resolved (VArr [VStr "by_age"])).
Proof.
  split; [|reflexivity].
  exact (proj1 (@ensureIndexes_reconciles _ ScriptedDriver
                  (bound "users" (Some [by_email; by_age])) "users" eq_refl
                  VUndefined
                  (empty_world [Fulfils (VBool true); Fulfils (VBool false);
                                Fulfils (VStr "by_age")]))).
Defined.

(** On the reference store a second consecutive run finds every declared
    index and creates nothing. *)
Section EnsureIndexesTwice.
Context `{QueryLanguage}.

Lemma Promise_all_fulfilled vs : Promise_all (map Fulfils vs) = inl vs.
Proof. induction vs as [|v vs IH]; simpl; [done|]. by rewrite IH. Qed.

Lemma mem_checks coll indexes h (s : MemStore) :
  answers coll (map check_of indexes) h s =
  (map (fun d => Fulfils (VBool (bool_decide (index_name d ∈ ms_indexes s))))
     indexes, s).
Proof.
  induction indexes as [|d rest IH]; simpl; [done|]. by rewrite IH.
Qed.

Lemma mem_creations coll decls h : forall s : MemStore,
  exists s',
    answers coll (map creation_of decls) h s =
      (map (fun d => Fulfils (VStr (index_name d))) decls, s')
    /\ (forall name, name ∈ ms_indexes s -> name ∈ ms_indexes s')
    /\ (forall d, d ∈ decls -> index_name d ∈ ms_indexes s').
Proof.
  induction decls as [|d rest IH]; intros s; simpl.
  - exists s. split; [done|]. split; [done|]. intros d Hd. by inversion Hd.
  - set (s1 := {| ms_docs := ms_docs s;
                  ms_indexes :=
                    if bool_decide (opt_name (idx_options d) ∈ ms_indexes s)
                    then ms_indexes s
                    else ms_indexes s ++ [opt_name (idx_options d)] |}).
    destruct (IH s1) as (s' & Hrun & Hkeep & Hnew).
    assert (Hs1 : forall name, name ∈ ms_indexes s -> name ∈ ms_indexes s1).
    { intros name Hin. subst s1. cbn. case_bool_decide; [done|].
      apply elem_of_app. by left. }
    assert (Hd1 : index_name d ∈ ms_indexes s1).
    { subst s1. unfold index_name. cbn. case_bool_decide; [done|].
      apply elem_of_app. right. by apply list_elem_of_singleton. }
    exists s'. rewrite Hrun. split; [done|]. split.
    + intros name Hin. by apply Hkeep, Hs1.
    + intros d' Hd'. apply elem_of_cons in Hd' as [->|Hd']; [|by apply Hnew].
      by apply Hkeep.
Qed.

Lemma missing_of_flags (present : IndexDecl -> bool) indexes :
  missing_of (map (fun d => VBool (present d)) indexes) indexes =
  List.filter (fun d => negb (present d)) indexes.
Proof.
  unfold missing_of. induction indexes as [|d rest IH]; cbn; [done|].
  destruct (present d); cbn; by rewrite IH.
Qed.

Lemma ensureIndexes_twice (this : ModelAbstract) (coll : string) options
    (w : World MemStore) :
  _collection this = Some coll ->
  let first := ensureIndexes this options w in
  let second := ensureIndexes this options (snd first) in
  fst second = Normal (Resolved (VArr []))
  /\ calls_of (trace (snd second)) =
       calls_of (trace (snd first)) ++
       map (fun d => (coll, check_of d)) (default [] (_indexes this)).
Proof.
  intros Hcoll first second.
  destruct (_indexes this) as [indexes|] eqn:Hidx; last first.
  { subst second first. unfold ensureIndexes, new_Promise. rewrite Hidx.
    cbn. by rewrite app_nil_r. }
  set (present := fun (s : MemStore) d =>
                    bool_decide (index_name d ∈ ms_indexes s)).
  (* the first run *)
  pose proof (mem_checks coll indexes (heap w) (store w)) as Hchecks1.
  assert (Hflags1 : Promise_all
            (map (fun d => Fulfils (VBool (present (store w) d))) indexes) =
            inl (map (fun d => VBool (present (store w) d)) indexes)).
  { rewrite <- (Promise_all_fulfilled (map _ indexes)). by rewrite map_map. }
  pose proof (ensureIndexes_run this coll Hcoll options w indexes _ _ _
                Hidx Hchecks1 Hflags1) as Hfirst.
  cbv zeta in Hfirst. rewrite missing_of_flags in Hfirst.
  set (missing := List.filter (fun d => negb (present (store w) d)) indexes)
    in Hfirst.
  destruct (mem_creations coll missing (heap w) (store w))
    as (s1 & Hcreate & Hkeep & Hnew).
  rewrite Hcreate in Hfirst. cbn [fst snd] in Hfirst.
  (* every declared index exists afterwards *)
  assert (Hall : forall d, d ∈ indexes -> present s1 d = true).
  { intros d Hd. unfold present. apply bool_decide_eq_true.
    destruct (present (store w) d) eqn:Hp.
    - apply Hkeep. by apply bool_decide_eq_true in Hp.
    - apply Hnew. subst missing. apply list_elem_of_In, filter_In.
      split; [by apply list_elem_of_In|]. by rewrite Hp. }
  (* the second run *)
  assert (Hw1 : heap (snd first) = heap w /\ store (snd first) = s1).
  { subst first. by rewrite Hfirst. }
  destruct Hw1 as [Hheap1 Hstore1].
  pose proof (mem_checks coll indexes (heap (snd first)) (store (snd first)))
    as Hchecks2.
  assert (Hflags2 : Promise_all
            (map (fun d => Fulfils (VBool (present (store (snd first)) d)))
               indexes) =
            inl (map (fun d => VBool (present (store (snd first)) d)) indexes)).
  { rewrite <- (Promise_all_fulfilled (map _ indexes)). by rewrite map_map. }
  pose proof (ensureIndexes_run this coll Hcoll options (snd first) indexes
                _ _ _ Hidx Hchecks2 Hflags2) as Hsecond.
  cbv zeta in Hsecond. rewrite missing_of_flags in Hsecond.
  assert (Hnone : List.filter
                    (fun d => negb (present (store (snd first)) d)) indexes
                  = []).
  { rewrite Hstore1. clear -Hall. induction indexes as [|d rest IH]; [done|].
    cbn. rewrite (Hall d) by (apply elem_of_cons; by left). cbn.
    apply IH. intros d' Hd'. apply Hall. apply elem_of_cons. by right. }
  rewrite Hnone in Hsecond. subst second. rewrite Hsecond. cbn.
  split; [done|]. rewrite app_nil_r, calls_of_app. f_equal.
  clear. induction indexes as [|d rest IH]; cbn; [done|]. by rewrite IH.
Qed.

End EnsureIndexesTwice.

(** ** [init] and the missing collection handle *)

Section Init.
Context `{Runtime} `{ErrorCodes} `{QueryText} {St : Type} `{Driver St}.

Lemma init_binds this name :
  _collectionName this = Some name -> name <> "" ->
  exists this', init this = Normal this' /\ _collection this' = Some name.
Proof.
  intros Hname Hne. unfold init. rewrite Hname.
  destruct (String.eqb_spec name ""); [done|]. eauto.
Qed.

(** An operation that finds no handle rejects the promise it returns with
    the runtime's error for a read on [null]; nothing is sent to the store
    and no timer is stopped. *)
Lemma operation_without_handle this op (w : World St) :
  _collection this = None ->
  exists w',
    run_operation this op w =
      (Normal (Rejected (TypeError ("Cannot read property '" +:+ method_of op
                                    +:+ "' of null"))), w')
    /\ trace w' = trace w /\ store w' = store w.
Proof.
  intros Hnone.
  destruct op; unfold_facade; cbn; rewrite Hnone; cbn;
    try (eexists; split; [reflexivity|done]).
  - destruct (truthy (lookup_prop "id" (heap w !!! data))); cbn;
      eexists; split; try reflexivity; done.
  - destruct options as [o|]; cbn; [|eexists; split; [reflexivity|done]].
    destruct (lookup_prop "returnOriginal" (heap w !!! o)); cbn;
      eexists; split; try reflexivity; done.
Qed.

(** [aggregate] is synchronous: without a handle it throws the same
    [TypeError], after its timer has been stopped. *)
Lemma aggregate_without_handle this pipeline options (w : World St) :
  _collection this = None ->
  fst (aggregate this pipeline options w) =
    Throw (TypeError "Cannot read property 'aggregate' of null")
  /\ terminal_calls (trace (snd (aggregate this pipeline options w))) =
       terminal_calls (trace w) ++ [TimerStop "aggregate"].
Proof.
  intros Hnone. unfold_facade. cbn. rewrite Hnone.
  destruct (_debugger this) as [[[|]]|]; cbn; by read_trace.
Qed.

(** [find] does not touch the handle: it hands it to the chain (as the
    chain is modelled, its constructor only stores it). *)
Lemma find_without_handle this flt fields sort limit offset options
    (w : World St) :
  _collection this = None ->
  exists chain,
    find this flt fields sort limit offset options w = (Normal chain, w)
    /\ ch_collection chain = None.
Proof. intros Hnone. eexists. split; [reflexivity|]. exact Hnone. Qed.

(** C2, as the code has it.  [init()] on a facade with no declared
    collection name fails synchronously with code [NO_COLLECTION_NAME].
    The operations themselves do not test the handle: on a facade whose
    handle is unset each of them returns a promise rejected with the
    runtime's [TypeError], whose [code] is [undefined]. *)
Theorem init_guards_handle_operations_do_not this :
  (name_undeclared this ->
   fails_synchronously_with NO_COLLECTION_NAME (init this))
  /\ (_collection this = None ->
      forall op (w : World St),
      exists e,
        fst (run_operation this op w) = Normal (Rejected e)
        /\ get e "code" = Normal VUndefined
        /\ ~ fails_synchronously_with NO_COLLECTION_NAME
               (fst (run_operation this op w))).
Proof.
  split.
  - intros [Hname|Hname]; unfold init; rewrite Hname;
      eexists; split; try reflexivity; done.
  - intros Hnone op w.
    destruct (operation_without_handle this op w Hnone) as (w' & Hrun & _).
    rewrite Hrun. eexists. split; [reflexivity|]. split; [reflexivity|].
    intros (e & Habs & _). discriminate.
Qed.

End Init.

Lemma init_guards_handle_operations_do_not_witness :
  fails_synchronously_with (VStr "NO_COLLECTION_NAME")
    (@init sample_codes new_ModelAbstract)
  /\ exists e,
       fst (@run_operation sample_runtime sample_codes _ ScriptedDriver
              new_ModelAbstract (OpCount (VObj []) VUndefined) (empty_world []))
       = Normal (Rejected e)
       /\ get e "code" = Normal VUndefined.
Proof.
  pose proof (@init_guards_handle_operations_do_not
                sample_runtime sample_codes _ ScriptedDriver new_ModelAbstract)
    as [Hinit Hops].
  split.
  - apply Hinit. left. reflexivity.
  - destruct (Hops eq_refl (OpCount (VObj []) VUndefined) (empty_world []))
      as (e & Hrun & Hcode & _).
    exists e. split; assumption.
Defined.

(** C2, as stated, fails: on a facade whose [init()] was never called,
    [insertOne] does not throw; it returns a promise, rejected with a
    [TypeError] that carries no code. *)
Lemma insertOne_before_init_rejects_with_TypeError :
  fst (@insertOne sample_runtime sample_codes _ ScriptedDriver
         new_ModelAbstract 1%positive VUndefined
         (world_with [("id", VStr "X")] []))
  = Normal (Rejected (TypeError "Cannot read property 'insertOne' of null"))
  /\ ~ fails_synchronously_with (VStr "NO_COLLECTION_NAME")
        (fst (@insertOne sample_runtime sample_codes _ ScriptedDriver
                new_ModelAbstract 1%positive VUndefined
                (world_with [("id", VStr "X")] []))).
Proof.
  split; [reflexivity|].
  intros (e & Habs & _). discriminate.
Qed.

(** ** [insertOne] *)

Lemma lookup_assign_eq k v props :
  lookup_prop k (assign_prop k v props) = v.
Proof.
  induction props as [|[k' v'] rest IH]; simpl.
  - by rewrite String.eqb_refl.
  - destruct (String.eqb k k') eqn:E; simpl.
    + by rewrite String.eqb_refl.
    + by rewrite E.
Qed.

Lemma lookup_assign_ne k k' v props :
  k <> k' -> lookup_prop k (assign_prop k' v props) = lookup_prop k props.
Proof.
  intros Hne. induction props as [|[k'' v''] rest IH]; simpl.
  - destruct (String.eqb_spec k k'); [done|reflexivity].
  - destruct (String.eqb_spec k' k'') as [->|Hne']; simpl.
    + destruct (String.eqb_spec k k''); [done|reflexivity].
    + destruct (String.eqb_spec k k''); [reflexivity|exact IH].
Qed.

Lemma copy_id_keeps_id data (h : gmap loc (list (string * value))) :
  lookup_prop "id" (copy_id data h !!! data) = lookup_prop "id" (h !!! data).
Proof.
  unfold copy_id. destruct (truthy (lookup_prop "id" (h !!! data))); [|done].
  rewrite lookup_total_insert_eq. by apply lookup_assign_ne.
Qed.

Lemma truthy_get error k :
  truthy error = true -> exists v, get error k = Normal v.
Proof. destruct error; simpl; try discriminate; eauto. Qed.

(** The identifiers [if (data.id)] skips. *)
Example falsy_identifiers :
  truthy (VNum 0) = false /\ truthy (VStr "") = false
  /\ truthy VNull = false /\ truthy (lookup_prop "id" []) = false.
Proof. by repeat split. Qed.

Section InsertOne.
Context `{Runtime} `{ErrorCodes} {St : Type} `{Driver St}.
Variables (this : ModelAbstract) (coll : string).
Hypothesis Hcoll : _collection this = Some coll.

(** The heap [insertOne] leaves is the caller's heap after the copy of
    the identifier; the one call it issues hands the store the caller's own
    object, and the store answers on the heap so changed. *)
Lemma insertOne_effects data options (w : World St) :
  heap (snd (insertOne this data options w)) = copy_id data (heap w)
  /\ calls_of (trace (snd (insertOne this data options w))) =
       calls_of (trace w) ++ [(coll, InsertOne data)]
  /\ store (snd (insertOne this data options w)) =
       snd (driver_call coll (InsertOne data) (copy_id data (heap w)) (store w)).
Proof.
  unfold copy_id. unfold_facade. cbn. rewrite Hcoll.
  destruct (_debugger this) as [[[|]]|];
    destruct (truthy (lookup_prop "id" (heap w !!! data))); cbn.
  all: destruct (driver_call coll (InsertOne data) _ (store w))
         as [[v|e] s1] eqn:E; cbn.
  all: run_cases.
  all: by read_trace.
Qed.

(** How [insertOne] settles when the store rejects. *)
Lemma insertOne_on_rejection data options (w : World St) error s1 :
  driver_call coll (InsertOne data) (copy_id data (heap w)) (store w)
    = (Rejects error, s1) ->
  fst (insertOne this data options w) =
  Normal (if truthy error then
            Rejected (if is_conflict error then
                        ModelError
                          ("record with id = " +:+
                           to_string (lookup_prop "id" (heap w !!! data)) +:+
                           " already exists")
                          ALREADY_EXISTS
                      else error)
          else Pending).
Proof.
  intros Hd. pose proof (copy_id_keeps_id data (heap w)) as Hid.
  unfold copy_id in *. unfold is_conflict. unfold_facade. cbn. rewrite Hcoll.
  destruct (_debugger this) as [[[|]]|];
    destruct (truthy (lookup_prop "id" (heap w !!! data))); cbn.
  all: rewrite Hd; cbn.
  all: destruct (truthy error) eqn:Herr; cbn; [|reflexivity].
  all: destruct (truthy_get error "code" Herr) as [code ->]; cbn.
  all: destruct (truthy code && loose_eq_num code 11000); cbn.
  all: rewrite ?Hid.
  all: try destruct (truthy_get error "message" Herr) as [msg ->]; cbn.
  all: reflexivity.
Qed.

(** C3, as the code has it.  When the store rejects the insert with a
    truthy failure: if the failure is the duplicate-key condition
    ([error.code == 11000]) the promise rejects with an error whose code is
    [ALREADY_EXISTS] and whose message contains the identifier (for
    [id = "X"], the text [X]); any other truthy failure is the rejection
    value, unchanged. *)
Theorem insertOne_normalizes_store_failures data options (w : World St)
    error s1 :
  driver_call coll (InsertOne data) (copy_id data (heap w)) (store w)
    = (Rejects error, s1) ->
  truthy error = true ->
  let id := lookup_prop "id" (heap w !!! data) in
  let settled := fst (insertOne this data options w) in
  (is_conflict error = true ->
   exists msg,
     settled = Normal (Rejected (ModelError msg ALREADY_EXISTS))
     /\ get (ModelError msg ALREADY_EXISTS) "code" = Normal ALREADY_EXISTS
     /\ contains msg (to_string id)
     /\ forall X, id = VStr X -> contains msg X)
  /\ (is_conflict error = false -> settled = Normal (Rejected error)).
Proof.
  intros Hd Herr id settled. subst settled.
  rewrite (insertOne_on_rejection data options w error s1 Hd), Herr.
  split; intros ->; [|reflexivity].
  eexists. split; [reflexivity|]. split; [reflexivity|].
  split; [by exists "record with id = ", " already exists"|].
  intros X HX. fold id. rewrite HX.
  by exists "record with id = ", " already exists".
Qed.

(** C9. [insertOne] copies the identifier only when [data.id] is truthy,
    and it does so by assigning [_id] on the caller's own object: after the
    call the caller's heap holds the object with [_id] set (and is
    untouched for a falsy [id]); the one call issued to the store passes
    that same object, and the store answers on the heap already changed. *)
Theorem insertOne_copies_id_in_place data options (w : World St) :
  let id := lookup_prop "id" (heap w !!! data) in
  let after := snd (insertOne this data options w) in
  (truthy id = true ->
   heap after = <[data := assign_prop "_id" id (heap w !!! data)]> (heap w)
   /\ lookup_prop "_id" (heap after !!! data) = id)
  /\ (truthy id = false -> heap after = heap w)
  /\ calls_of (trace after) = calls_of (trace w) ++ [(coll, InsertOne data)]
  /\ store after =
       snd (driver_call coll (InsertOne data) (heap after) (store w)).
Proof.
  intros id after.
  destruct (insertOne_effects data options w) as (Hheap & Hcalls & Hstore).
  fold after in Hheap, Hcalls, Hstore.
  split; [|split; [|split]].
  - intros Hid. rewrite Hheap. unfold copy_id. fold id. rewrite Hid.
    split; [reflexivity|].
    rewrite lookup_total_insert_eq. apply lookup_assign_eq.
  - intros Hid. rewrite Hheap. unfold copy_id. fold id. by rewrite Hid.
  - exact Hcalls.
  - by rewrite Hheap.
Qed.

(** C10. If the store rejects the insert with a falsy value, the promise
    [insertOne] returned is never settled: the rejection handler does
    nothing outside its [if (error)]. *)
Theorem insertOne_falsy_rejection_never_settles data options (w : World St)
    error s1 :
  driver_call coll (InsertOne data) (copy_id data (heap w)) (store w)
    = (Rejects error, s1) ->
  truthy error = false ->
  fst (insertOne this data options w) = Normal Pending.
Proof.
  intros Hd Herr.
  by rewrite (insertOne_on_rejection data options w error s1 Hd), Herr.
Qed.

End InsertOne.

Lemma insertOne_normalizes_store_failures_witness :
  let taken := {| ms_docs := [VObj [("_id", VStr "X")]]; ms_indexes := [] |} in
  exists msg,
    fst (@insertOne sample_runtime sample_codes _ (@MemDriver sample_queries)
           (bound "users" None) 1%positive VUndefined
           (world_with [("id", VStr "X")] taken))
    = Normal (Rejected (ModelError msg (VStr "ALREADY_EXISTS")))
    /\ contains msg "X".
Proof.
  destruct (@insertOne_normalizes_store_failures
              sample_runtime sample_codes _ (@MemDriver sample_queries)
              (bound "users" None) "users" eq_refl 1%positive VUndefined
              (world_with [("id", VStr "X")]
                 {| ms_docs := [VObj [("_id", VStr "X")]]; ms_indexes := [] |})
              duplicate_key_error
              {| ms_docs := [VObj [("_id", VStr "X")]]; ms_indexes := [] |}
              eq_refl eq_refl) as [Hconflict _].
  destruct (Hconflict eq_refl) as (msg & Hrun & _ & _ & HX).
  exists msg. split; [exact Hrun|]. apply HX. reflexivity.
Defined.

(** C3, as stated, fails: a store failure that is not the conflict
    condition but is falsy (here the number 0) is not passed through; the
    promise stays pending. *)
Lemma insertOne_falsy_failure_is_not_passed_through :
  let settled :=
    fst (@insertOne sample_runtime sample_codes _ ScriptedDriver
           (bound "users" None) 1%positive VUndefined
           (world_with [("id", VStr "X")] [Rejects (VNum 0)])) in
  @is_conflict sample_runtime (VNum 0) = false
  /\ settled = Normal Pending
  /\ settled <> Normal (Rejected (VNum 0)).
Proof. split; [reflexivity|]. split; [reflexivity|discriminate]. Qed.

Lemma insertOne_copies_id_in_place_witness :
  let after :=
    snd (@insertOne sample_runtime sample_codes _ ScriptedDriver
           (bound "users" None) 1%positive VUndefined
           (world_with [("id", VStr "X"); ("n", VNum 1)] [])) in
  heap after = heap_with [("id", VStr "X"); ("n", VNum 1); ("_id", VStr "X")]
  /\ calls_of (trace after) = [("users", InsertOne 1%positive)].
Proof.
  destruct (@insertOne_copies_id_in_place
              sample_runtime sample_codes _ ScriptedDriver
              (bound "users" None) "users" eq_refl 1%positive VUndefined
              (world_with [("id", VStr "X"); ("n", VNum 1)] []))
    as (Hcopy & _ & Hcalls & _).
  split; [|exact Hcalls].
  destruct (Hcopy eq_refl) as [Hheap _]. rewrite Hheap. reflexivity.
Defined.

Lemma insertOne_falsy_rejection_never_settles_witness :
  fst (@insertOne sample_runtime sample_codes _ ScriptedDriver
         (bound "users" None) 1%positive VUndefined
         (world_with [("id", VStr "X")] [Rejects VNull]))
  = Normal Pending.
Proof.
  exact (@insertOne_falsy_rejection_never_settles
           sample_runtime sample_codes _ ScriptedDriver
           (bound "users" None) "users" eq_refl 1%positive VUndefined
           (world_with [("id", VStr "X")] [Rejects VNull]) VNull []
           eq_refl eq_refl).
Defined.

(** On the reference store the conflict arises as the claim describes it:
    a document with primary key [X] is stored, and a document carrying
    [id = X] is inserted. *)
Lemma insertOne_existing_key `{Runtime} `{ErrorCodes} `{QueryLanguage}
    (this : ModelAbstract) (coll : string) data options
    (w : World MemStore) X doc :
  _collection this = Some coll ->
  lookup_prop "id" (heap w !!! data) = VStr X ->
  X <> "" ->
  doc ∈ ms_docs (store w) ->
  primary_key doc = VStr X ->
  fst (insertOne this data options w) =
    Normal (Rejected (ModelError ("record with id = " +:+ X +:+ " already exists")
                                 ALREADY_EXISTS)).
Proof.
  intros Hcoll Hid HX Hdoc Hkey.
  assert (Hreply : driver_call coll (InsertOne data) (copy_id data (heap w))
                     (store w) = (Rejects duplicate_key_error, store w)).
  { unfold copy_id. rewrite Hid. cbn.
    destruct (String.eqb_spec X ""); [done|]. cbn.
    rewrite lookup_total_insert_eq, lookup_assign_eq. cbn.
    assert (Hex : existsb (fun d => value_eqb (primary_key d) (VStr X))
                    (ms_docs (store w)) = true).
    { apply existsb_exists. exists doc. split; [by apply list_elem_of_In|].
      rewrite Hkey. cbn. apply String.eqb_refl. }
    by rewrite Hex. }
  rewrite (insertOne_on_rejection this coll Hcoll data options w _ _ Hreply).
  cbn. by rewrite Hid.
Qed.

(** ** [findOneAndUpdate] *)

Lemma find_and_update_first p f docs d :
  head (List.filter p docs) = Some d ->
  exists pre post,
    docs = pre ++ d :: post
    /\ Forall (fun x => p x = false) pre
    /\ find_and_update p f docs = (Some (d, f d), pre ++ f d :: post).
Proof.
  induction docs as [|x rest IH]; simpl; [done|].
  destruct (p x) eqn:Hx; simpl.
  - intros [= ->]. by exists [], rest.
  - intros Hd. destruct (IH Hd) as (pre & post & -> & Hpre & Hrun).
    exists (x :: pre), post. rewrite Hrun.
    split; [done|]. split; [by constructor|done].
Qed.

Section FindOneAndUpdate.
Context `{Runtime} `{ErrorCodes} {St : Type} `{Driver St}.
Variables (this : ModelAbstract) (coll : string).
Hypothesis Hcoll : _collection this = Some coll.

(** Whatever the store: unless the caller asked for the original, the
    options the store receives say [returnOriginal: false], and the promise
    resolves with what the store resolved. *)
Lemma findOneAndUpdate_defaults flt update options (w : World St) :
  requests_original (heap w) options = false ->
  exists opts,
    get opts "returnOriginal" = Normal (VBool false)
    /\ calls_of (trace (snd (findOneAndUpdate this flt update options w))) =
         calls_of (trace w) ++ [(coll, FindOneAndUpdate flt update opts)]
    /\ forall data s1,
         driver_call coll (FindOneAndUpdate flt update opts)
           (heap (snd (findOneAndUpdate this flt update options w))) (store w)
           = (Fulfils data, s1) ->
         fst (findOneAndUpdate this flt update options w)
           = Normal (Resolved data)
         /\ store (snd (findOneAndUpdate this flt update options w)) = s1.
Proof.
  intros Hreq. unfold requests_original in Hreq.
  destruct options as [o|].
  - destruct (lookup_prop "returnOriginal" (heap w !!! o)) as [| |[|]| | | |]
      eqn:Hro; try discriminate.
    + exists (VObj (assign_prop "returnOriginal" (VBool false) (heap w !!! o))).
      split; [cbn; by rewrite lookup_assign_eq|].
      unfold_facade. cbn. rewrite Hcoll, Hro. cbn.
      rewrite lookup_total_insert_eq.
      destruct (_debugger this) as [[[|]]|]; cbn.
      all: destruct (driver_call coll _ _ (store w)) as [[v|e] s2] eqn:E; cbn.
      all: run_cases.
      all: split; [by read_trace|]; intros data s1 Hd; rewrite E in Hd;
      by simplify_eq.
    + exists (VObj (heap w !!! o)).
      split; [cbn; by rewrite Hro|].
      unfold_facade. cbn. rewrite Hcoll, Hro. cbn.
      destruct (_debugger this) as [[[|]]|]; cbn.
      all: destruct (driver_call coll _ _ (store w)) as [[v|e] s2] eqn:E; cbn.
      all: run_cases.
      all: split; [by read_trace|]; intros data s1 Hd; rewrite E in Hd;
      by simplify_eq.
  - exists (VObj [("returnOriginal", VBool false)]).
    split; [reflexivity|].
    unfold_facade. cbn. rewrite Hcoll. cbn.
    destruct (_debugger this) as [[[|]]|]; cbn.
    all: destruct (driver_call coll _ _ (store w)) as [[v|e] s2] eqn:E; cbn.
    all: run_cases.
    all: split; [by read_trace|]; intros data s1 Hd; rewrite E in Hd;
      by simplify_eq.
Qed.

End FindOneAndUpdate.

Section FindOneAndUpdateOnStore.
Context `{Runtime} `{ErrorCodes} `{QueryLanguage}.

(** C6. On the reference store, for every filter and update: when
    [findOneAndUpdate] is called with no options, or with options that do
    not ask for the original, and [before] is the first document the filter
    selects, the promise resolves with [before] after the update, which is
    also the document the store now holds in its place. *)
Theorem findOneAndUpdate_returns_updated_document
    (this : ModelAbstract) (coll : string) flt update options
    (w : World MemStore) before :
  _collection this = Some coll ->
  requests_original (heap w) options = false ->
  head (matching flt (ms_docs (store w))) = Some before ->
  let run := findOneAndUpdate this flt update options w in
  fst run = Normal (Resolved (apply_update update before))
  /\ exists pre post,
       ms_docs (store w) = pre ++ before :: post
       /\ ms_docs (store (snd run)) = pre ++ apply_update update before :: post.
Proof.
  intros Hcoll Hreq Hfirst run.
  destruct (findOneAndUpdate_defaults this coll Hcoll flt update options w Hreq)
    as (opts & Hopts & _ & Hsettle).
  destruct (find_and_update_first (matches flt) (apply_update update)
              (ms_docs (store w)) before Hfirst)
    as (pre & post & Hdocs & _ & Hupd).
  destruct (Hsettle (apply_update update before)
              (with_docs (store w) (pre ++ apply_update update before :: post)))
    as [Hres Hstore].
  { cbn. rewrite Hupd, Hopts. reflexivity. }
  split; [exact Hres|].
  exists pre, post. split; [exact Hdocs|].
  subst run. by rewrite Hstore.
Qed.

End FindOneAndUpdateOnStore.

Lemma findOneAndUpdate_returns_updated_document_witness :
  let users :=
    {| ms_docs := [VObj [("_id", VNum 1); ("name", VStr "ann")];
                   VObj [("_id", VNum 2); ("name", VStr "bob")]];
       ms_indexes := [] |} in
  fst (@findOneAndUpdate sample_runtime _ (@MemDriver sample_queries)
         (bound "users" None)
         (VObj [("_id", VNum 2)]) (VObj [("name", VStr "rob")]) None
         (empty_world users))
  = Normal (Resolved (VObj [("_id", VNum 2); ("name", VStr "rob")])).
Proof.
  exact (proj1 (@findOneAndUpdate_returns_updated_document
                  sample_runtime sample_queries (bound "users" None) "users"
                  (VObj [("_id", VNum 2)]) (VObj [("name", VStr "rob")]) None
                  (empty_world
                     {| ms_docs := [VObj [("_id", VNum 1); ("name", VStr "ann")];
                                    VObj [("_id", VNum 2); ("name", VStr "bob")]];
                        ms_indexes := [] |})
                  (VObj [("_id", VNum 2); ("name", VStr "bob")])
                  eq_refl eq_refl eq_refl)).
Defined.

(** For contrast: options that carry [returnOriginal: true] reach the store
    as they are, and the reference store answers with the document as it
    was. *)
Lemma findOneAndUpdate_original_on_request `{Runtime} `{QueryLanguage}
    (this : ModelAbstract) (coll : string) flt update o
    (w : World MemStore) before :
  _collection this = Some coll ->
  lookup_prop "returnOriginal" (heap w !!! o) = VBool true ->
  head (matching flt (ms_docs (store w))) = Some before ->
  fst (findOneAndUpdate this flt update (Some o) w) = Normal (Resolved before).
Proof.
  intros Hcoll Hro Hfirst.
  destruct (find_and_update_first (matches flt) (apply_update update)
              (ms_docs (store w)) before Hfirst)
    as (pre & post & Hdocs & _ & Hupd).
  unfold_facade. cbn. rewrite Hcoll, Hro. cbn. rewrite Hupd, Hro.
  destruct (_debugger this) as [[[|]]|]; reflexivity.
Qed.

(** ** [findOneById] *)

Section FindOneById.
Context `{Runtime} `{ErrorCodes} {St : Type} `{Driver St}.

(** C8. [findOneById] never forwards [options]: for any two values of it,
    from the same state, the same lookup [findOne({_id: id})] is issued,
    the store ends in the same state, the timer ends the same way and the
    promise settles alike.  (Only the message of the instrumentation record
    mentions [options].) *)
Theorem findOneById_ignores_options (this : ModelAbstract) id options1 options2
    (w : World St) :
  let run1 := findOneById this id options1 w in
  let run2 := findOneById this id options2 w in
  fst run1 = fst run2
  /\ calls_of (trace (snd run1)) = calls_of (trace (snd run2))
  /\ calls_of (trace (snd run1)) =
       calls_of (trace w) ++
       match _collection this with
       | Some coll => [(coll, FindOne (VObj [("_id", id)]) VUndefined)]
       | None => []
       end
  /\ store (snd run1) = store (snd run2)
  /\ heap (snd run1) = heap (snd run2)
  /\ terminal_calls (trace (snd run1)) = terminal_calls (trace (snd run2)).
Proof.
  unfold_facade. cbn.
  destruct (_collection this) as [coll|]; cbn;
    [|by repeat split; read_trace].
  destruct (_debugger this) as [[[|]]|]; cbn.
  all: destruct (driver_call coll _ (heap w) (store w)) as [[v|e] s1]; cbn.
  all: run_cases.
  all: by repeat split; read_trace.
Qed.

End FindOneById.

(** ** [find] and the query chain *)

Lemma window_length limit offset (docs : list value) :
  length (window limit offset docs) =
  match limit with
  | Some n => Nat.min n (length docs - default 0%nat offset)
  | None => (length docs - default 0%nat offset)%nat
  end.
Proof.
  unfold window.
  destruct limit as [n|], offset as [k|]; cbn;
    rewrite ?length_take, ?length_drop, ?Nat.sub_0_r; reflexivity.
Qed.

Section Find.
Context `{Runtime} `{ErrorCodes} `{QueryText} `{QueryLanguage}.

(** C5. On the reference store, [find] returns a chain that carries the
    hook of [find], and whatever sort order, limit and offset the caller
    then sets on it, the terminal call is that hook run on the cursor of
    the accumulated state: it stops the timer of [find], issues [count()]
    and [toArray()] on the cursor, and resolves with [{total, docs}] where
    [total] is the number of stored documents the filter selects (the limit
    and the offset do not enter it), and [docs] holds the page: at most
    [limit] documents, and exactly 3 of 10 for [limit = 3] with an offset
    of at most 7. *)
Theorem find_total_ignores_page_window (this : ModelAbstract) (coll : string)
    flt fields sort_arg limit_arg offset_arg options (w : World MemStore) :
  _collection this = Some coll ->
  exists chain hook,
    find this flt fields sort_arg limit_arg offset_arg options w
      = (Normal chain, w)
    /\ ch_onExec chain = Some hook
    /\ forall sort limit offset (w1 : World MemStore),
       let selected := matching flt (ms_docs (store w1)) in
       let cursor :=
         {| cur_collection := coll; cur_filter := flt; cur_fields := fields;
            cur_sort := default VUndefined sort; cur_limit := limit;
            cur_offset := offset |} in
       let run := exec (with_page sort limit offset chain) w1 in
       run = hook cursor (debugMessage cursor) w1
       /\ calls_of (trace (snd run)) =
            calls_of (trace w1) ++
            [(coll, CursorCount cursor); (coll, CursorToArray cursor)]
       /\ terminal_calls (trace (snd run)) =
            terminal_calls (trace w1) ++ [TimerStop "find"]
       /\ length (records_of (trace (snd run))) =
            (length (records_of (trace w1))
             + if sink_installed this then 1 else 0)%nat
       /\ exists docs,
         fst run =
           Normal (Resolved (VObj [("total", VNum (Z.of_nat (length selected)));
                                   ("docs", VArr docs)]))
         /\ length docs =
              match limit with
              | Some n => Nat.min n (length selected - default 0%nat offset)
              | None => (length selected - default 0%nat offset)%nat
              end
         /\ (forall n, limit = Some n -> (length docs <= n)%nat)
         /\ (length selected = 10%nat -> limit = Some 3%nat ->
             (default 0%nat offset <= 7)%nat -> length docs = 3%nat).
Proof.
  intros Hcoll. eexists. eexists. split; [reflexivity|].
  split; [reflexivity|].
  intros sort limit offset w1 selected cursor run.
  assert (Hlen : length (map (project fields)
                          (window limit offset
                             (order_by (default VUndefined sort) selected))) =
                 match limit with
                 | Some n => Nat.min n (length selected - default 0%nat offset)
                 | None => (length selected - default 0%nat offset)%nat
                 end).
  { rewrite length_map, window_length.
    by rewrite (Permutation_length (order_by_perm _ selected)). }
  split.
  { subst run cursor. unfold exec, with_page.
    destruct sort as [s|], limit as [n|], offset as [k|]; cbn;
      rewrite Hcoll; reflexivity. }
  assert (Hfst : fst run =
            Normal (Resolved
                      (VObj [("total", VNum (Z.of_nat (length selected)));
                             ("docs",
                              VArr (map (project fields)
                                      (window limit offset
                                         (order_by (default VUndefined sort)
                                            selected))))]))
            /\ calls_of (trace (snd run)) =
                 calls_of (trace w1) ++
                 [(coll, CursorCount cursor); (coll, CursorToArray cursor)]
            /\ terminal_calls (trace (snd run)) =
                 terminal_calls (trace w1) ++ [TimerStop "find"]
            /\ length (records_of (trace (snd run))) =
                 (length (records_of (trace w1))
                  + if sink_installed this then 1 else 0)%nat).
  { subst run cursor selected. unfold exec, with_page, sink_installed.
    destruct sort as [s|], limit as [n|], offset as [k|]; cbn; rewrite Hcoll;
      unfold_facade; unfold issue; cbn;
      destruct (_debugger this) as [[[|]]|]; cbn;
      repeat split; read_trace; rewrite ?length_app; cbn; try lia;
      try reflexivity; try (by rewrite <- app_assoc). }
  destruct Hfst as (Hfst & Hcalls & Hterm & Hrec).
  split; [exact Hcalls|]. split; [exact Hterm|]. split; [exact Hrec|].
  eexists. split; [exact Hfst|]. split; [exact Hlen|]. split.
  - intros n ->. rewrite Hlen. lia.
  - intros H10 -> Hoff. rewrite Hlen, H10. lia.
Qed.

(** The arguments [sort], [limit], [offset] and [options] of [find] itself
    do not reach the chain. *)
Lemma find_ignores_page_arguments (this : ModelAbstract) flt fields
    sort1 limit1 offset1 options1 sort2 limit2 offset2 options2
    (w : World MemStore) :
  find this flt fields sort1 limit1 offset1 options1 w =
  find this flt fields sort2 limit2 offset2 options2 w.
Proof. reflexivity. Qed.

End Find.

Lemma find_total_ignores_page_window_witness :
  exists chain docs,
    @find _ (@MemDriver sample_queries)
      (bound "users" None) (VObj [("active", VBool true)]) VUndefined
      VUndefined VUndefined VUndefined VUndefined (empty_world ten_active)
    = (Normal chain, empty_world ten_active)
    /\ fst (@exec sample_text _ (@MemDriver sample_queries)
              (with_page None (Some 3%nat) None chain)
              (empty_world ten_active))
       = Normal (Resolved (VObj [("total", VNum 10); ("docs", VArr docs)]))
    /\ length docs = 3%nat.
Proof.
  destruct (@find_total_ignores_page_window
              sample_text sample_queries
              (bound "users" None) "users"
              (VObj [("active", VBool true)]) VUndefined
              VUndefined VUndefined VUndefined VUndefined
              (empty_world ten_active) eq_refl)
    as (chain & hook & Hfind & _ & Hexec).
  destruct (Hexec None (Some 3%nat) None (empty_world ten_active))
    as (_ & _ & _ & _ & docs & Hrun & _ & _ & H3).
  exists chain, docs. split; [exact Hfind|]. split; [exact Hrun|].
  apply H3; [reflexivity|reflexivity|cbn; lia].
Defined.

(** ** [aggregate] *)

Section Aggregate.
Context `{Runtime} `{ErrorCodes} {St : Type} `{Driver St}.

(** C7. [aggregate] hands the pipeline and the options to the store and
    returns what the store returns (or throws what it throws), with no
    promise of its own.  Its instrumentation is one record, written when
    the timer is stopped before the store is called: it spans no awaited
    work (its duration is 0 ticks), and nothing is delivered once the
    aggregation has been issued. *)
Theorem aggregate_passes_through (this : ModelAbstract) (coll : string)
    pipeline options (w : World St) :
  _collection this = Some coll ->
  let answer := driver_call coll (Aggregate pipeline options) (heap w) (store w) in
  let run := aggregate this pipeline options w in
  fst run = match fst answer with
            | Fulfils cursor => Normal cursor
            | Rejects e => Throw e
            end
  /\ store (snd run) = snd answer
  /\ exists record,
       trace (snd run) =
         trace w ++ [TimerStop "aggregate"]
                 ++ (if sink_installed this then [Log record] else [])
                 ++ [Call coll (Aggregate pipeline options)]
       /\ operationName record = "aggregate"
       /\ durationMs record = 0%nat
       /\ error record = None.
Proof.
  intros Hcoll. unfold sink_installed. unfold_facade. cbn. rewrite Hcoll.
  destruct (_debugger this) as [[[|]]|]; cbn.
  all: destruct (driver_call coll _ (heap w) (store w)) as [[v|e] s1]; cbn.
  all: split; [reflexivity|]; split; [reflexivity|].
  all: rewrite ?Nat.sub_diag, <- ?app_assoc; cbn.
  all: exists {| category := "mongo"; operationName := "aggregate";
                 message := "pipeline=" +:+ _json pipeline +:+
                            " options=" +:+ _json options;
                 durationMs := 0; error := None |}.
  all: done.
Qed.

End Aggregate.

Lemma aggregate_passes_through_witness :
  let this := setDebugger (bound "users" None) (Some {| has_log := true |}) in
  let run :=
    @aggregate sample_runtime _ ScriptedDriver this
      (VArr [VObj [("$match", VObj [])]]) VUndefined
      (empty_world [Fulfils (VStr "cursor")]) in
  fst run = Normal (VStr "cursor")
  /\ calls_of (trace (snd run)) =
       [("users", Aggregate (VArr [VObj [("$match", VObj [])]]) VUndefined)]
  /\ length (records_of (trace (snd run))) = 1%nat.
Proof.
  destruct (@aggregate_passes_through sample_runtime _ ScriptedDriver
              (setDebugger (bound "users" None) (Some {| has_log := true |}))
              "users" (VArr [VObj [("$match", VObj [])]]) VUndefined
              (empty_world [Fulfils (VStr "cursor")]) eq_refl)
    as (Hres & _ & record & Htrace & _).
  split; [exact Hres|].
  cbv zeta. rewrite Htrace. split; reflexivity.
Defined.

(** ** Instrumentation *)

Section Instrumentation.
Context `{Runtime} `{ErrorCodes} {St : Type} `{Driver St}.

(** The timed single-call operations on a bound facade. *)
Lemma settled_operation_instrumentation (this : ModelAbstract)
    (coll : string) op (w : World St) :
  _collection this = Some coll ->
  insert_results_are_objects coll ->
  let run := run_operation this op w in
  fst run <> Normal Pending ->
  exists events,
    trace (snd run) = trace w ++ events
    /\ length (terminal_calls events) = 1%nat
    /\ length (records_of events) = (if sink_installed this then 1 else 0)%nat
    /\ (forall v, fst run = Normal (Resolved v) ->
        exists name, terminal_calls events = [TimerStop name])
    /\ (forall e, fst run = Normal (Rejected e) ->
        exists name msg, terminal_calls events = [TimerError name msg]).
Proof.
  intros Hcoll Hins run. subst run. unfold sink_installed.
  destruct op; unfold_facade; cbn; rewrite Hcoll; cbn.
  all: destruct (_debugger this) as [[[|]]|]; cbn.
  all: run_cases.
  all: intros Hs; try congruence.
  all: try match goal with
       | Hg : get_index ?a _ = Throw _, Ht : truthy ?a = true |- _ =>
           apply get_index_throw_nullish in Hg;
           apply truthy_not_nullish in Ht; congruence
       | Hg : get ?v _ = Throw _,
         Hd : driver_call _ (InsertOne _) _ _ = (Fulfils ?v, _) |- _ =>
           apply get_throw_nullish in Hg;
           rewrite (Hins _ _ _ v (f_equal fst Hd)) in Hg; discriminate
       end.
  all: rewrite <- ?app_assoc; eexists; (split; [reflexivity|]); cbn.
  all: repeat split; intros; simplify_eq; eauto.
Qed.

(** None of them throws: each returns a promise. *)
Lemma operation_returns_promise (this : ModelAbstract) op (w : World St) :
  exists p, fst (run_operation this op w) = Normal p.
Proof.
  destruct op; unfold_facade; cbn.
  all: destruct (_collection this) as [coll|]; cbn.
  all: destruct (_debugger this) as [[[|]]|]; cbn.
  all: run_cases.
  all: eauto.
Qed.

Lemma terminal_calls_of_calls coll cs :
  terminal_calls (map (Call coll) cs) = [].
Proof. induction cs; simpl; done. Qed.

Lemma records_of_calls coll cs : records_of (map (Call coll) cs) = [].
Proof. induction cs; simpl; done. Qed.

(** C4, as the code has it.  On a bound facade whose store fulfils inserts
    with result objects: each of [insertOne], [findOneAndUpdate],
    [findOne], [findOneById], [updateOne], [removeOne] and [count] returns
    a promise without throwing, and whenever that promise resolves or
    rejects exactly one terminal call was made on the operation's timer
    ([stop] on resolution, [error] on rejection) and exactly one record
    reached the installed sink, none when no sink (or one without [log]) is
    installed; [aggregate] makes exactly one terminal call, a [stop], and
    delivers the same number of records. *)
Theorem one_record_per_settled_operation (this : ModelAbstract)
    (coll : string) (w : World St) :
  _collection this = Some coll ->
  insert_results_are_objects coll ->
  (forall op,
     let run := run_operation this op w in
     (exists p, fst run = Normal p)
     /\ (fst run <> Normal Pending ->
         exists events,
           trace (snd run) = trace w ++ events
           /\ length (terminal_calls events) = 1%nat
           /\ length (records_of events) =
                (if sink_installed this then 1 else 0)%nat
           /\ (forall v, fst run = Normal (Resolved v) ->
               exists name, terminal_calls events = [TimerStop name])
           /\ (forall e, fst run = Normal (Rejected e) ->
               exists name msg, terminal_calls events = [TimerError name msg])))
  /\ (forall pipeline options,
        let run := aggregate this pipeline options w in
        exists events,
          trace (snd run) = trace w ++ events
          /\ terminal_calls events = [TimerStop "aggregate"]
          /\ length (records_of events) =
               (if sink_installed this then 1 else 0)%nat)
  /\ (forall options,
        let run := ensureIndexes this options w in
        terminal_calls (trace (snd run)) = terminal_calls (trace w)
        /\ records_of (trace (snd run)) = records_of (trace w)).
Proof.
  intros Hcoll Hins. split; [|split].
  - intros op run. split; [apply operation_returns_promise|].
    by apply (settled_operation_instrumentation this coll).
  - intros pipeline options run. subst run. unfold sink_installed.
    unfold_facade. cbn. rewrite Hcoll.
    destruct (_debugger this) as [[[|]]|]; cbn.
    all: destruct (driver_call coll _ (heap w) (store w)) as [[v|e] s1]; cbn.
    all: rewrite <- ?app_assoc; eexists; (split; [reflexivity|]); by cbn.
  - intros options run. subst run.
    destruct (ensureIndexes_only_calls this coll Hcoll options w)
      as [calls ->].
    rewrite terminal_calls_app, records_of_app.
    by rewrite terminal_calls_of_calls, records_of_calls, !app_nil_r.
Qed.

End Instrumentation.

Lemma MemDriver_insert_results `{QueryLanguage} coll :
  @insert_results_are_objects MemStore MemDriver coll.
Proof.
  intros data h s v. cbn.
  destruct (negb _ && existsb _ _); cbn; intros Hf; by simplify_eq.
Defined.

Lemma one_record_per_settled_operation_witness :
  let this := setDebugger (bound "users" None) (Some {| has_log := true |}) in
  let run :=
    @run_operation sample_runtime sample_codes _ (@MemDriver sample_queries)
      this (OpCount (VObj [("active", VBool true)]) VUndefined)
      (empty_world ten_active) in
  fst run = Normal (Resolved (VNum 10))
  /\ exists events,
       trace (snd run) = events
       /\ length (terminal_calls events) = 1%nat
       /\ length (records_of events) = 1%nat.
Proof.
  destruct (@one_record_per_settled_operation
              sample_runtime sample_codes _ (@MemDriver sample_queries)
              (setDebugger (bound "users" None) (Some {| has_log := true |}))
              "users" (empty_world ten_active) eq_refl
              (@MemDriver_insert_results sample_queries "users"))
    as (Hops & _ & _).
  destruct (Hops (OpCount (VObj [("active", VBool true)]) VUndefined))
    as [_ Hone].
  split; [reflexivity|].
  destruct Hone as (events & Htrace & Hcalls & Hrecords & _); [discriminate|].
  exists events. split; [exact Htrace|]. split; assumption.
Defined.

(** C4, as stated, fails.  [ensureIndexes] is an operation of the facade
    that creates no timer: it resolves with no record delivered to the
    installed sink.  (And the hook of [find] stops its timer before the
    query runs and calls [error] as well when the query fails: two terminal
    calls and two records for one rejection.) *)
Lemma ensureIndexes_resolves_without_record :
  let this :=
    setDebugger (bound "users" (Some [by_email])) (Some {| has_log := true |}) in
  let run :=
    @ensureIndexes _ ScriptedDriver this VUndefined
      (empty_world [Fulfils (VBool false); Fulfils (VStr "by_email")]) in
  sink_installed this = true
  /\ fst run = Normal (Resolved (VArr [VStr "by_email"]))
  /\ terminal_calls (trace (snd run)) = []
  /\ length (records_of (trace (snd run))) <> 1%nat.
Proof. repeat split. discriminate. Qed.

(** The hook of [find] on a failing query. *)
Lemma find_rejection_stops_and_errors :
  let this := setDebugger (bound "users" None) (Some {| has_log := true |}) in
  let failure := VObj [("message", VStr "connection lost")] in
  exists chain,
    @find _ ScriptedDriver this (VObj []) VUndefined
      VUndefined VUndefined VUndefined VUndefined
      (empty_world [Rejects failure; Fulfils (VArr [])])
    = (Normal chain, empty_world [Rejects failure; Fulfils (VArr [])])
    /\ let run := @exec sample_text _ ScriptedDriver chain
                    (empty_world [Rejects failure; Fulfils (VArr [])]) in
       fst run = Normal (Rejected failure)
       /\ terminal_calls (trace (snd run)) =
            [TimerStop "find"; TimerError "find" (VStr "connection lost")]
       /\ length (records_of (trace (snd run))) = 2%nat.
Proof. eexists. split; [reflexivity|]. repeat split. Qed.

(** ** The one-call delegations *)

Section Delegations.
Context `{Runtime} `{ErrorCodes} {St : Type} `{Driver St}.
Variables (this : ModelAbstract) (coll : string).
Hypothesis Hcoll : _collection this = Some coll.

(** [insertOne] resolves with the first inserted document the store
    reports, or with [null]. *)
Lemma insertOne_on_fulfilment data options (w : World St) result s1 :
  driver_call coll (InsertOne data) (copy_id data (heap w)) (store w)
    = (Fulfils result, s1) ->
  nullish result = false ->
  exists ops,
    get result "ops" = Normal ops
    /\ fst (insertOne this data options w) =
         Normal (Resolved
                   (if truthy ops then
                      match get_index ops 0 with
                      | Normal first => if truthy first then first else VNull
                      | Throw _ => VNull
                      end
                    else VNull)).
Proof.
  intros Hd Hres. unfold copy_id in Hd.
  destruct (get result "ops") as [ops|e] eqn:Hops;
    [|apply get_throw_nullish in Hops; congruence].
  exists ops. split; [reflexivity|].
  unfold_facade. cbn. rewrite Hcoll.
  destruct (_debugger this) as [[[|]]|];
    destruct (truthy (lookup_prop "id" (heap w !!! data))); cbn.
  all: rewrite Hd; cbn; rewrite Hops; cbn.
  all: destruct (truthy ops) eqn:Ht; cbn; [|reflexivity].
  all: destruct (get_index ops 0) as [first|e] eqn:Hfirst; cbn;
         [|apply get_index_throw_nullish in Hfirst;
           apply truthy_not_nullish in Ht; congruence].
  all: by destruct (truthy first).
Qed.

(** [findOne] resolves with the document, or with [null] when the store
    finds none: absence is not an error. *)
Lemma findOne_on_fulfilment query options (w : World St) doc s1 :
  driver_call coll (FindOne query options) (heap w) (store w)
    = (Fulfils doc, s1) ->
  fst (findOne this query options w) =
    Normal (Resolved (if truthy doc then doc else VNull)).
Proof.
  intros Hd. unfold_facade. cbn. rewrite Hcoll.
  destruct (_debugger this) as [[[|]]|]; cbn.
  all: rewrite Hd; cbn.
  all: by destruct (truthy doc).
Qed.

(** [updateOne] resolves with the payload it was given, not with what the
    store answered. *)
Lemma updateOne_resolves_with_payload flt data options (w : World St) num s1 :
  driver_call coll (Update flt data (VObj [])) (heap w) (store w)
    = (Fulfils num, s1) ->
  fst (updateOne this flt data options w) = Normal (Resolved data).
Proof.
  intros Hd. unfold_facade. cbn. rewrite Hcoll.
  destruct (_debugger this) as [[[|]]|]; cbn.
  all: by rewrite Hd.
Qed.

(** [removeOne] and [count] resolve with the store's answer. *)
Lemma removeOne_resolves_with_count flt options (w : World St) n s1 :
  driver_call coll (Remove flt (VObj [])) (heap w) (store w)
    = (Fulfils n, s1) ->
  fst (removeOne this flt options w) = Normal (Resolved n).
Proof.
  intros Hd. unfold_facade. cbn. rewrite Hcoll.
  destruct (_debugger this) as [[[|]]|]; cbn.
  all: by rewrite Hd.
Qed.

Lemma count_resolves_with_count flt options (w : World St) n s1 :
  driver_call coll (Count flt) (heap w) (store w) = (Fulfils n, s1) ->
  fst (count this flt options w) = Normal (Resolved n).
Proof.
  intros Hd. unfold_facade. cbn. rewrite Hcoll.
  destruct (_debugger this) as [[[|]]|]; cbn.
  all: by rewrite Hd.
Qed.

End Delegations.

(** * Further properties of the facade *)

(** ** What each delegation sends and how it settles *)

Section Delegates.
Context `{Runtime} `{ErrorCodes} {St : Type} `{Driver St}.
Variables (this : ModelAbstract) (coll : string).
Hypothesis Hcoll : _collection this = Some coll.

(** X1. [findOne] issues exactly one store call, [findOne(query, options)]
    with both arguments as given, and leaves the caller's heap alone.  It
    resolves with the document, or with [null] when the store yields a
    falsy value; a store failure is the rejection value, unchanged, except
    that a [null] or [undefined] failure leaves the promise pending (the
    handler throws on [error.message]). *)
Theorem findOne_delegates query options (w : World St) :
  let answer := driver_call coll (FindOne query options) (heap w) (store w) in
  let run := findOne this query options w in
  fst run = Normal (match fst answer with
                    | Fulfils doc => Resolved (if truthy doc then doc else VNull)
                    | Rejects e => if nullish e then Pending else Rejected e
                    end)
  /\ calls_of (trace (snd run)) =
       calls_of (trace w) ++ [(coll, FindOne query options)]
  /\ store (snd run) = snd answer
  /\ heap (snd run) = heap w.
Proof.
  unfold_facade. cbn. rewrite Hcoll.
  destruct (_debugger this) as [[[|]]|]; cbn.
  all: destruct (driver_call coll _ (heap w) (store w)) as [[v|e] s1]; cbn.
  all: try destruct (truthy v); try destruct e; cbn.
  all: by repeat split; read_trace.
Qed.

(** X2. [findOneById] looks the document up by [{_id: id}] in exactly one
    store call and resolves with it, or with [null] when the store finds
    none; failures pass as for [findOne]. *)
Theorem findOneById_delegates id options (w : World St) :
  let answer :=
    driver_call coll (FindOne (VObj [("_id", id)]) VUndefined)
      (heap w) (store w) in
  let run := findOneById this id options w in
  fst run = Normal (match fst answer with
                    | Fulfils doc => Resolved (if truthy doc then doc else VNull)
                    | Rejects e => if nullish e then Pending else Rejected e
                    end)
  /\ calls_of (trace (snd run)) =
       calls_of (trace w) ++ [(coll, FindOne (VObj [("_id", id)]) VUndefined)]
  /\ store (snd run) = snd answer
  /\ heap (snd run) = heap w.
Proof.
  unfold_facade. cbn. rewrite Hcoll.
  destruct (_debugger this) as [[[|]]|]; cbn.
  all: destruct (driver_call coll _ (heap w) (store w)) as [[v|e] s1]; cbn.
  all: try destruct (truthy v); try destruct e; cbn.
  all: by repeat split; read_trace.
Qed.

(** X3. [updateOne] calls [update(filter, data, {})]: the options of the
    caller never reach the store.  When the store fulfils, whatever it
    answers, the promise resolves with the payload [data] itself. *)
Theorem updateOne_delegates flt data options (w : World St) :
  let answer := driver_call coll (Update flt data (VObj [])) (heap w) (store w) in
  let run := updateOne this flt data options w in
  fst run = Normal (match fst answer with
                    | Fulfils _ => Resolved data
                    | Rejects e => if nullish e then Pending else Rejected e
                    end)
  /\ calls_of (trace (snd run)) =
       calls_of (trace w) ++ [(coll, Update flt data (VObj []))]
  /\ store (snd run) = snd answer
  /\ heap (snd run) = heap w.
Proof.
  unfold_facade. cbn. rewrite Hcoll.
  destruct (_debugger this) as [[[|]]|]; cbn.
  all: destruct (driver_call coll _ (heap w) (store w)) as [[v|e] s1]; cbn.
  all: try destruct e; cbn.
  all: by repeat split; read_trace.
Qed.

(** X4. [removeOne] calls [remove(filter, {})], ignoring the caller's
    options, and resolves with the store's answer as it is. *)
Theorem removeOne_delegates flt options (w : World St) :
  let answer := driver_call coll (Remove flt (VObj [])) (heap w) (store w) in
  let run := removeOne this flt options w in
  fst run = Normal (match fst answer with
                    | Fulfils n => Resolved n
                    | Rejects e => if nullish e then Pending else Rejected e
                    end)
  /\ calls_of (trace (snd run)) =
       calls_of (trace w) ++ [(coll, Remove flt (VObj []))]
  /\ store (snd run) = snd answer
  /\ heap (snd run) = heap w.
Proof.
  unfold_facade. cbn. rewrite Hcoll.
  destruct (_debugger this) as [[[|]]|]; cbn.
  all: destruct (driver_call coll _ (heap w) (store w)) as [[v|e] s1]; cbn.
  all: try destruct e; cbn.
  all: by repeat split; read_trace.
Qed.

(** X5. [count] calls [count(filter)], with no options, and resolves with
    the store's answer as it is. *)
Theorem count_delegates flt options (w : World St) :
  let answer := driver_call coll (Count flt) (heap w) (store w) in
  let run := count this flt options w in
  fst run = Normal (match fst answer with
                    | Fulfils n => Resolved n
                    | Rejects e => if nullish e then Pending else Rejected e
                    end)
  /\ calls_of (trace (snd run)) = calls_of (trace w) ++ [(coll, Count flt)]
  /\ store (snd run) = snd answer
  /\ heap (snd run) = heap w.
Proof.
  unfold_facade. cbn. rewrite Hcoll.
  destruct (_debugger this) as [[[|]]|]; cbn.
  all: destruct (driver_call coll _ (heap w) (store w)) as [[v|e] s1]; cbn.
  all: try destruct e; cbn.
  all: by repeat split; read_trace.
Qed.

End Delegates.

(** ** [insertOne] and [findOneAndUpdate] beyond the identifier copy *)

Section Writes.
Context `{Runtime} `{ErrorCodes} {St : Type} `{Driver St}.
Variables (this : ModelAbstract) (coll : string).
Hypothesis Hcoll : _collection this = Some coll.

(** X6. When the store fulfils the insert with a result object,
    [insertOne] resolves with [result.ops[0]], the first inserted document,
    and with [null] when [result.ops] is missing, falsy or empty; in every
    case it resolves. *)
Theorem insertOne_resolves_with_first_op data options (w : World St)
    result s1 :
  driver_call coll (InsertOne data) (copy_id data (heap w)) (store w)
    = (Fulfils result, s1) ->
  nullish result = false ->
  let settled := fst (insertOne this data options w) in
  (forall doc rest,
     get result "ops" = Normal (VArr (doc :: rest)) -> truthy doc = true ->
     settled = Normal (Resolved doc))
  /\ (forall ops, get result "ops" = Normal ops -> truthy ops = false ->
      settled = Normal (Resolved VNull))
  /\ (get result "ops" = Normal (VArr []) -> settled = Normal (Resolved VNull))
  /\ exists v, settled = Normal (Resolved v).
Proof.
  intros Hd Hres settled.
  destruct (insertOne_on_fulfilment this coll Hcoll data options w result s1
              Hd Hres) as (ops & Hops & Hrun).
  fold settled in Hrun. rewrite Hrun, Hops. repeat split.
  - intros doc rest [= ->] Hdoc. cbn. by rewrite Hdoc.
  - intros ops' [= <-] Hfalsy. by rewrite Hfalsy.
  - by intros [= ->].
  - eauto.
Qed.

(** X7. [findOneAndUpdate] completes the caller's own options object: when
    the object has no [returnOriginal], the field is written into it with
    the value [false]; an object that has one, whatever its value, and the
    heap of a caller who passed no options, are left as they were.  The
    store receives the filter and the update as given and the options so
    completed, in exactly one call, and its answer settles the promise
    unchanged. *)
Theorem findOneAndUpdate_completes_options flt update options (w : World St) :
  let run := findOneAndUpdate this flt update options w in
  let opts :=
    match options with
    | None => [("returnOriginal", VBool false)]
    | Some o =>
        match lookup_prop "returnOriginal" (heap w !!! o) with
        | VUndefined =>
            assign_prop "returnOriginal" (VBool false) (heap w !!! o)
        | _ => heap w !!! o
        end
    end in
  let answer :=
    driver_call coll (FindOneAndUpdate flt update (VObj opts))
      (heap (snd run)) (store w) in
  heap (snd run) =
    match options with
    | None => heap w
    | Some o =>
        match lookup_prop "returnOriginal" (heap w !!! o) with
        | VUndefined => <[o := opts]> (heap w)
        | _ => heap w
        end
    end
  /\ calls_of (trace (snd run)) =
       calls_of (trace w) ++ [(coll, FindOneAndUpdate flt update (VObj opts))]
  /\ fst run = Normal (match fst answer with
                       | Fulfils data => Resolved data
                       | Rejects e => if nullish e then Pending else Rejected e
                       end)
  /\ store (snd run) = snd answer.
Proof.
  unfold_facade. cbn. rewrite Hcoll.
  destruct options as [o|]; cbn.
  - destruct (lookup_prop "returnOriginal" (heap w !!! o)) eqn:Hro; cbn;
      rewrite ?lookup_total_insert_eq.
    all: destruct (_debugger this) as [[[|]]|]; cbn.
    all: destruct (driver_call coll _ _ (store w)) as [[v|e] s1] eqn:E; cbn.
    all: rewrite ?E; cbn.
    all: try destruct e; cbn.
    all: by repeat split; read_trace; rewrite ?E.
  - destruct (_debugger this) as [[[|]]|]; cbn.
    all: destruct (driver_call coll _ _ (store w)) as [[v|e] s1] eqn:E; cbn.
    all: rewrite ?E; cbn.
    all: try destruct e; cbn.
    all: by repeat split; read_trace; rewrite ?E.
Qed.

End Writes.

(** ** [ensureIndexes], [init], [aggregate] and the hook of [find] at their
    edges *)

Lemma Promise_all_rejection rs e : Promise_all rs = inr e -> Rejects e ∈ rs.
Proof.
  induction rs as [|[v|e'] rs IH]; simpl; [done| |].
  - destruct (Promise_all rs) as [vs|e'']; [done|].
    intros [= ->]. apply elem_of_cons. right. by apply IH.
  - intros [= ->]. apply elem_of_cons. by left.
Qed.

Section Edges.
Context `{Runtime} `{ErrorCodes} {St : Type} `{Driver St}.

(** X8. When a creation call fails, [ensureIndexes] rejects with the
    failure of one of the creation calls; every creation call of the plan
    has been issued all the same, also those that follow the failing one,
    and the store keeps what the others created: nothing is rolled back. *)
Theorem ensureIndexes_creation_failure (this : ModelAbstract) (coll : string)
    options (w : World St) indexes checks s1 flags created s2 e :
  _collection this = Some coll ->
  _indexes this = Some indexes ->
  answers coll (map check_of indexes) (heap w) (store w) = (checks, s1) ->
  Promise_all checks = inl flags ->
  answers coll (map creation_of (missing_of flags indexes)) (heap w) s1
    = (created, s2) ->
  Promise_all created = inr e ->
  let run := ensureIndexes this options w in
  fst run = Normal (Rejected e)
  /\ Rejects e ∈ created
  /\ trace (snd run) =
       trace w ++ map (Call coll) (map check_of indexes)
               ++ map (Call coll) (map creation_of (missing_of flags indexes))
  /\ store (snd run) = s2.
Proof.
  intros Hcoll Hidx Hchecks Hflags Hcreated Hfail run. subst run.
  rewrite (ensureIndexes_run this coll Hcoll options w indexes checks s1 flags
             Hidx Hchecks Hflags).
  rewrite Hcreated. cbn [fst snd trace store].
  destruct (missing_of flags indexes) as [|d rest] eqn:Hmiss.
  - cbn in Hcreated. by simplify_eq.
  - rewrite Hfail. split; [done|]. split; [by apply Promise_all_rejection|].
    done.
Qed.

(** X9. Without a collection handle [ensureIndexes] still resolves with an
    empty array when no index is declared ([_indexes] unset or empty); with
    a declared index it rejects with the runtime's [TypeError] at the first
    existence check.  Either way nothing is sent to the store. *)
Theorem ensureIndexes_without_handle (this : ModelAbstract) options
    (w : World St) :
  _collection this = None ->
  let run := ensureIndexes this options w in
  fst run =
    Normal (match _indexes this with
            | None | Some [] => Resolved (VArr [])
            | Some (_ :: _) =>
                Rejected (TypeError "Cannot read property 'indexExists' of null")
            end)
  /\ trace (snd run) = trace w
  /\ store (snd run) = store w.
Proof.
  intros Hnone. unfold ensureIndexes, new_Promise, each.
  destruct (_indexes this) as [[|d rest]|]; cbn.
  - done.
  - unfold bind, on_collection. rewrite Hnone. by cbn.
  - done.
Qed.

(** X10. [init()] on a facade with a declared, non-empty collection name
    does not throw: it binds the handle to that name, whatever handle was
    bound before, and leaves the name, the index declarations and the sink
    as they were; calling it again changes nothing. *)
Theorem init_binds_and_is_idempotent (this : ModelAbstract) name :
  _collectionName this = Some name ->
  name <> "" ->
  exists this',
    init this = Normal this'
    /\ _collection this' = Some name
    /\ _collectionName this' = _collectionName this
    /\ _indexes this' = _indexes this
    /\ _debugger this' = _debugger this
    /\ init this' = Normal this'.
Proof.
  intros Hname Hne. unfold init. rewrite Hname.
  destruct (String.eqb_spec name ""); [done|].
  eexists. split; [reflexivity|]. unfold init. cbn.
  destruct (String.eqb_spec name ""); [done|]. by repeat split.
Qed.

(** X11. [aggregate] fails synchronously without a collection handle: it
    throws the runtime's [TypeError] instead of returning a
    rejected promise, sends nothing to the store, and has by then stopped
    its timer and delivered the record. *)
Theorem aggregate_without_handle_throws (this : ModelAbstract)
    pipeline options (w : World St) :
  _collection this = None ->
  let run := aggregate this pipeline options w in
  fst run = Throw (TypeError "Cannot read property 'aggregate' of null")
  /\ calls_of (trace (snd run)) = calls_of (trace w)
  /\ terminal_calls (trace (snd run)) =
       terminal_calls (trace w) ++ [TimerStop "aggregate"]
  /\ length (records_of (trace (snd run))) =
       (length (records_of (trace w))
        + if sink_installed this then 1 else 0)%nat.
Proof.
  intros Hnone. unfold sink_installed. unfold_facade. cbn. rewrite Hnone.
  destruct (_debugger this) as [[[|]]|]; cbn; repeat split; read_trace;
    rewrite ?length_app; cbn; try done; lia.
Qed.

(** X12. The hook [find] registers: on the cursor it is given it issues
    [count()] and then [toArray()], both before waiting for either, so both
    are issued whatever their answers.  When both fulfil it resolves with
    [{total, docs}] holding the two answers as they are; when one of them
    fails it rejects with a failure of one of the two, unchanged (pending
    for a [null] or [undefined] failure). *)
Theorem find_hook_counts_and_fetches (this : ModelAbstract)
    flt fields sort limit offset options (w0 : World St) :
  exists chain hook,
    find this flt fields sort limit offset options w0 = (Normal chain, w0)
    /\ ch_onExec chain = Some hook
    /\ ch_filter chain = flt /\ ch_fields chain = fields
    /\ forall cursor message (w : World St),
         let counted :=
           driver_call (cur_collection cursor) (CursorCount cursor)
             (heap w) (store w) in
         let fetched :=
           driver_call (cur_collection cursor) (CursorToArray cursor)
             (heap w) (snd counted) in
         let run := hook cursor message w in
         calls_of (trace (snd run)) =
           calls_of (trace w) ++
           [(cur_collection cursor, CursorCount cursor);
            (cur_collection cursor, CursorToArray cursor)]
         /\ store (snd run) = snd fetched
         /\ heap (snd run) = heap w
         /\ (forall total docs,
               fst counted = Fulfils total -> fst fetched = Fulfils docs ->
               fst run =
                 Normal (Resolved (VObj [("total", total); ("docs", docs)])))
         /\ ((exists e, fst counted = Rejects e) \/
             (exists e, fst fetched = Rejects e) ->
             exists e,
               (fst counted = Rejects e \/ fst fetched = Rejects e)
               /\ fst run = Normal (if nullish e then Pending else Rejected e)).
Proof.
  eexists. eexists. split; [reflexivity|]. split; [reflexivity|].
  split; [reflexivity|]. split; [reflexivity|].
  intros cursor message w. unfold_facade. unfold issue. cbn.
  destruct (_debugger this) as [[[|]]|]; cbn.
  all: destruct (driver_call _ (CursorCount cursor) (heap w) (store w))
         as [counted s1]; cbn.
  all: destruct (driver_call _ (CursorToArray cursor) (heap w) s1)
         as [fetched s2]; cbn.
  all: destruct counted as [total|e1], fetched as [docs|e2]; cbn.
  all: try destruct e1; try destruct e2; cbn.
  all: repeat split; read_trace; try done.
  all: try (intros total' docs' ? ?; by simplify_eq).
  all: try (intros [[e He]|[e He]]; by simplify_eq).
  all: try (by rewrite <- app_assoc).
  all: intros _;
         first [ eexists; split; [left; reflexivity|reflexivity]
               | eexists; split; [right; reflexivity|reflexivity] ].
Qed.

End Edges.

(** * Properties of the request layer *)

Lemma keys_length_arr (items : list value) :
  length (keys (VArr items)) = length items.
Proof. cbn. by rewrite length_map, length_seq. Qed.

(** X13. [_isEmptyData] answers [true] exactly for the empty object, the
    empty array, [true] and a non-zero number; it answers [false] for
    [null], [undefined], [0], [false] and every string, empty or not, and
    for every object or array that holds something. *)
Theorem isEmptyData_true_iff data :
  _isEmptyData data = true <->
  data = VObj [] \/ data = VArr [] \/ data = VBool true
  \/ exists n, n <> 0 /\ data = VNum n.
Proof.
  unfold _isEmptyData. destruct data as [| |[|]|n|s|items|props]; cbn.
  - split; [done|]. intros [|[|[|(n & _ & ?)]]]; done.
  - split; [done|]. intros [|[|[|(n & _ & ?)]]]; done.
  - split; [tauto|done].
  - split; [done|]. intros [|[|[|(n & _ & ?)]]]; done.
  - destruct (Z.eqb_spec n 0) as [->|Hn]; cbn.
    + split; [done|]. intros [|[|[|(n & Hn & [= <-])]]]; done.
    + split; [|done]. intros _. right. right. right. by exists n.
  - destruct s as [|c s]; cbn.
    + split; [done|]. intros [|[|[|(n & _ & ?)]]]; done.
    + split; [done|]. intros [|[|[|(n & _ & ?)]]]; done.
  - rewrite length_map, length_seq. destruct items as [|x rest]; cbn.
    + split; [tauto|done].
    + split; [done|]. intros [|[|[|(n & _ & ?)]]]; done.
  - rewrite length_map. destruct props as [|kv rest]; cbn.
    + split; [tauto|done].
    + split; [done|]. intros [|[|[|(n & _ & ?)]]]; done.
Qed.

Lemma lookup_prop_omitted k names props :
  lookup_prop k
    (List.filter (fun kv => negb (existsb (String.eqb (fst kv)) names)) props)
  = if existsb (String.eqb k) names then VUndefined else lookup_prop k props.
Proof.
  induction props as [|[k' v] rest IH]; cbn.
  - by destruct (existsb _ names).
  - destruct (existsb (String.eqb k') names) eqn:Hk'; cbn.
    + rewrite IH. destruct (String.eqb_spec k k') as [->|Hne]; [|done].
      by rewrite Hk'.
    + destruct (String.eqb_spec k k') as [->|Hne]; [by rewrite Hk'|].
      exact IH.
Qed.

Lemma filter_omitted_twice names (props : list (string * value)) :
  List.filter (fun kv => negb (existsb (String.eqb (fst kv)) names))
    (List.filter (fun kv => negb (existsb (String.eqb (fst kv)) names)) props)
  = List.filter (fun kv => negb (existsb (String.eqb (fst kv)) names)) props.
Proof.
  induction props as [|kv rest IH]; cbn; [done|].
  destruct (negb _) eqn:E; cbn; [|exact IH]. by rewrite E, IH.
Qed.

(** X14. [clearSystemFields] returns the data itself when no system field
    is declared.  With system fields declared, each a property name, it
    returns a new object in which every system field reads [undefined] and
    every other property reads as in the data; clearing twice is clearing
    once; and [null] or [undefined] data comes back as the empty object. *)
Theorem clearSystemFields_omits (this : ApiAbstract) data :
  (_systemFields this = None -> clearSystemFields this data = data)
  /\ (forall fields, _systemFields this = Some fields ->
      exists props,
        clearSystemFields this data = VObj props
        /\ (forall k, k ∈ map pn_name fields ->
            lookup_prop k props = VUndefined)
        /\ (forall k, k ∉ map pn_name fields ->
            lookup_prop k props = lookup_prop k (own_props data))
        /\ clearSystemFields this (VObj props) = VObj props
        /\ (nullish data = true -> props = [])).
Proof.
  unfold clearSystemFields. split; [by intros ->|].
  intros fields ->. eexists. split; [reflexivity|].
  assert (Hin : forall k,
            existsb (String.eqb k) (map pn_name fields) = true
            <-> k ∈ map pn_name fields).
  { intros k. rewrite existsb_exists. split.
    - intros (k' & Hk' & Heq). apply String.eqb_eq in Heq as ->.
      by apply list_elem_of_In.
    - intros Hk. exists k. split; [by apply list_elem_of_In|].
      apply String.eqb_refl. }
  repeat split.
  - intros k Hk. rewrite lookup_prop_omitted.
    apply Hin in Hk. by rewrite Hk.
  - intros k Hk. rewrite lookup_prop_omitted.
    destruct (existsb (String.eqb k) (map pn_name fields)) eqn:E; [|done].
    by apply Hin in E.
  - unfold omit. cbn [own_props]. by rewrite filter_omitted_twice.
  - by destruct data.
Qed.

Lemma collect_details_objects details : forall acc,
  Forall (fun e => nullish e = false) details ->
  collect_details details acc = Normal (acc ++ map detail_entry details).
Proof.
  induction details as [|e rest IH]; intros acc Hall; cbn.
  - by rewrite app_nil_r.
  - apply Forall_cons in Hall as [He Hrest].
    unfold detail_entry at 1, read.
    destruct (get e "message") as [m|err] eqn:Hm;
      [|apply get_throw_nullish in Hm; congruence].
    destruct (get e "path") as [p|err] eqn:Hp;
      [|apply get_throw_nullish in Hp; congruence].
    destruct (get e "type") as [t|err] eqn:Ht;
      [|apply get_throw_nullish in Ht; congruence].
    rewrite IH by done. by rewrite <- app_assoc.
Qed.

Section Validation.
Context `{Joi} `{ApiErrorCodes}.

Lemma validate_run data schema options :
  validate data schema options =
  match joi_validate data schema (VObj (validator_options options)) with
  | JoiInvalid details =>
      match collect_details details [] with
      | Throw e => Rejected e
      | Normal entries =>
          Rejected (VObj [("message", VStr "invalid data");
                          ("code", INVALID_DATA);
                          ("list", VArr entries)])
      end
  | JoiValid converted => Resolved converted
  end.
Proof.
  unfold validate, _validate, validator_options, requested_allowUnknown, read.
  set (opts := if truthy options then options else VObj []).
  assert (Hopts : truthy opts = true).
  { subst opts. by destruct (truthy options) eqn:E. }
  destruct (truthy_get opts "allowUnknown" Hopts) as [au ->].
  by destruct (truthy au).
Qed.

(** X15. [validate] calls the validator once, always with [convert: true]
    and [abortEarly: false], and with [allowUnknown] only when the caller's
    options carry a truthy one (no options, falsy options or any other
    option add nothing).  When the validator accepts, the promise resolves
    with the data as the validator converted it, not with the input. *)
Theorem validate_resolves_with_converted_data data schema options converted :
  joi_validate data schema (VObj (validator_options options))
    = JoiValid converted ->
  validate data schema options = Resolved converted
  /\ lookup_prop "convert" (validator_options options) = VBool true
  /\ lookup_prop "abortEarly" (validator_options options) = VBool false
  /\ (truthy options = false ->
      validator_options options =
        [("convert", VBool true); ("abortEarly", VBool false)])
  /\ (forall props,
        options = VObj props ->
        lookup_prop "allowUnknown" (validator_options options) =
          if truthy (lookup_prop "allowUnknown" props)
          then lookup_prop "allowUnknown" props else VUndefined).
Proof.
  intros Hjoi. rewrite validate_run, Hjoi.
  split; [done|]. split; [done|]. split; [done|]. split.
  - intros Hfalsy. unfold validator_options, requested_allowUnknown.
    by rewrite Hfalsy.
  - intros props ->. unfold validator_options, requested_allowUnknown, read.
    cbn. by destruct (truthy (lookup_prop "allowUnknown" props)).
Qed.

(** X16. When the validator reports violations, [validate] rejects, and
    never resolves: the error carries the message ['invalid data'], the code
    [INVALID_DATA] and a list with one entry per violation, in order,
    holding the violation's [message], [path] and [type] and nothing
    else. *)
Theorem validate_rejects_with_violations data schema options details :
  joi_validate data schema (VObj (validator_options options))
    = JoiInvalid details ->
  Forall (fun e => nullish e = false) details ->
  validate data schema options =
    Rejected (VObj [("message", VStr "invalid data");
                    ("code", INVALID_DATA);
                    ("list", VArr (map detail_entry details))]).
Proof.
  intros Hjoi Hall. rewrite validate_run, Hjoi.
  by rewrite collect_details_objects.
Qed.

End Validation.

(** * The further properties on concrete runs *)

Lemma findOne_delegates_witness :
  fst (@findOne sample_runtime _ (@MemDriver sample_queries)
         (bound "users" None) (VObj [("_id", VNum 3)]) VUndefined
         (empty_world ten_active))
  = Normal (Resolved (user 3 false))
  /\ fst (@findOne sample_runtime _ (@MemDriver sample_queries)
            (bound "users" None) (VObj [("_id", VNum 99)]) VUndefined
            (empty_world ten_active))
     = Normal (Resolved VNull).
Proof.
  split.
  - exact (proj1 (@findOne_delegates sample_runtime _
                    (@MemDriver sample_queries) (bound "users" None) "users"
                    eq_refl (VObj [("_id", VNum 3)]) VUndefined
                    (empty_world ten_active))).
  - exact (proj1 (@findOne_delegates sample_runtime _
                    (@MemDriver sample_queries) (bound "users" None) "users"
                    eq_refl (VObj [("_id", VNum 99)]) VUndefined
                    (empty_world ten_active))).
Defined.

Lemma findOneById_delegates_witness :
  fst (@findOneById sample_runtime _ (@MemDriver sample_queries)
         (bound "users" None) (VNum 7) (VObj [("fields", VObj [])])
         (empty_world ten_active))
  = Normal (Resolved (user 7 false)).
Proof.
  exact (proj1 (@findOneById_delegates sample_runtime _
                  (@MemDriver sample_queries) (bound "users" None) "users"
                  eq_refl (VNum 7) (VObj [("fields", VObj [])])
                  (empty_world ten_active))).
Defined.

Lemma updateOne_delegates_witness :
  let run :=
    @updateOne sample_runtime _ ScriptedDriver (bound "users" None)
      (VObj [("_id", VNum 1)]) (VObj [("active", VBool false)])
      (VObj [("upsert", VBool true)])
      (empty_world [Fulfils (VObj [("n", VNum 1)])]) in
  fst run = Normal (Resolved (VObj [("active", VBool false)]))
  /\ calls_of (trace (snd run)) =
       [("users", Update (VObj [("_id", VNum 1)])
                         (VObj [("active", VBool false)]) (VObj []))].
Proof.
  destruct (@updateOne_delegates sample_runtime _ ScriptedDriver
              (bound "users" None) "users" eq_refl
              (VObj [("_id", VNum 1)]) (VObj [("active", VBool false)])
              (VObj [("upsert", VBool true)])
              (empty_world [Fulfils (VObj [("n", VNum 1)])]))
    as (Hrun & Hcalls & _).
  split; [exact Hrun|exact Hcalls].
Defined.

Lemma removeOne_delegates_witness :
  let run :=
    @removeOne sample_runtime _ (@MemDriver sample_queries)
      (bound "users" None) (VObj [("active", VBool false)])
      (VObj [("justOne", VBool true)]) (empty_world ten_active) in
  fst run = Normal (Resolved (VNum 3))
  /\ calls_of (trace (snd run)) =
       [("users", Remove (VObj [("active", VBool false)]) (VObj []))].
Proof.
  destruct (@removeOne_delegates sample_runtime _ (@MemDriver sample_queries)
              (bound "users" None) "users" eq_refl
              (VObj [("active", VBool false)])
              (VObj [("justOne", VBool true)]) (empty_world ten_active))
    as (Hrun & Hcalls & _).
  split; [exact Hrun|exact Hcalls].
Defined.

Lemma count_delegates_witness :
  fst (@count sample_runtime _ ScriptedDriver (bound "users" None)
         (VObj []) VUndefined
         (empty_world [Rejects (VObj [("message", VStr "timeout")])]))
  = Normal (Rejected (VObj [("message", VStr "timeout")])).
Proof.
  exact (proj1 (@count_delegates sample_runtime _ ScriptedDriver
                  (bound "users" None) "users" eq_refl (VObj []) VUndefined
                  (empty_world [Rejects (VObj [("message", VStr "timeout")])]))).
Defined.

Lemma insertOne_resolves_with_first_op_witness :
  fst (@insertOne sample_runtime sample_codes _ (@MemDriver sample_queries)
         (bound "users" None) 1%positive VUndefined
         (world_with [("id", VNum 20); ("active", VBool true)] ten_active))
  = Normal (Resolved (VObj [("id", VNum 20); ("active", VBool true);
                            ("_id", VNum 20)])).
Proof.
  destruct (@insertOne_resolves_with_first_op
              sample_runtime sample_codes _ (@MemDriver sample_queries)
              (bound "users" None) "users" eq_refl 1%positive VUndefined
              (world_with [("id", VNum 20); ("active", VBool true)] ten_active)
              (VObj [("ops", VArr [VObj [("id", VNum 20); ("active", VBool true);
                                         ("_id", VNum 20)]])])
              (with_docs ten_active
                 (ms_docs ten_active ++
                  [VObj [("id", VNum 20); ("active", VBool true);
                         ("_id", VNum 20)]]))
              eq_refl eq_refl) as (Hdoc & _).
  exact (Hdoc _ [] eq_refl eq_refl).
Defined.

Lemma findOneAndUpdate_completes_options_witness :
  let run :=
    @findOneAndUpdate sample_runtime _ ScriptedDriver (bound "users" None)
      (VObj [("_id", VNum 1)]) (VObj [("active", VBool false)])
      (Some 1%positive)
      (world_with [("upsert", VBool true)] [Fulfils VNull]) in
  heap (snd run) =
    heap_with [("upsert", VBool true); ("returnOriginal", VBool false)]
  /\ fst run = Normal (Resolved VNull).
Proof.
  destruct (@findOneAndUpdate_completes_options sample_runtime _ ScriptedDriver
              (bound "users" None) "users" eq_refl
              (VObj [("_id", VNum 1)]) (VObj [("active", VBool false)])
              (Some 1%positive)
              (world_with [("upsert", VBool true)] [Fulfils VNull]))
    as (Hheap & _ & Hrun & _).
  split; [|exact Hrun]. cbv zeta. rewrite Hheap. reflexivity.
Defined.

Lemma ensureIndexes_creation_failure_witness :
  let failure := VObj [("message", VStr "index build failed")] in
  let run :=
    @ensureIndexes _ ScriptedDriver (bound "users" (Some [by_email; by_age]))
      VUndefined
      (empty_world [Fulfils (VBool false); Fulfils (VBool false);
                    Rejects failure; Fulfils (VStr "by_age")]) in
  fst run = Normal (Rejected failure)
  /\ calls_of (trace (snd run)) =
       [("users", check_of by_email); ("users", check_of by_age);
        ("users", creation_of by_email); ("users", creation_of by_age)].
Proof.
  destruct (@ensureIndexes_creation_failure _ ScriptedDriver
              (bound "users" (Some [by_email; by_age])) "users" VUndefined
              (empty_world [Fulfils (VBool false); Fulfils (VBool false);
                            Rejects (VObj [("message",
                                            VStr "index build failed")]);
                            Fulfils (VStr "by_age")])
              [by_email; by_age]
              [Fulfils (VBool false); Fulfils (VBool false)]
              [Rejects (VObj [("message", VStr "index build failed")]);
               Fulfils (VStr "by_age")]
              [VBool false; VBool false]
              [Rejects (VObj [("message", VStr "index build failed")]);
               Fulfils (VStr "by_age")]
              []
              (VObj [("message", VStr "index build failed")])
              eq_refl eq_refl eq_refl eq_refl eq_refl eq_refl)
    as (Hrun & _ & Htrace & _).
  split; [exact Hrun|]. cbv zeta. rewrite Htrace. reflexivity.
Defined.

Lemma ensureIndexes_without_handle_witness :
  fst (@ensureIndexes _ ScriptedDriver (declared "users" (Some [by_email]))
         VUndefined (empty_world []))
  = Normal (Rejected (TypeError "Cannot read property 'indexExists' of null"))
  /\ fst (@ensureIndexes _ ScriptedDriver (declared "users" (Some []))
            VUndefined (empty_world []))
     = Normal (Resolved (VArr [])).
Proof.
  split.
  - exact (proj1 (@ensureIndexes_without_handle _ ScriptedDriver
                    (declared "users" (Some [by_email])) VUndefined
                    (empty_world []) eq_refl)).
  - exact (proj1 (@ensureIndexes_without_handle _ ScriptedDriver
                    (declared "users" (Some [])) VUndefined
                    (empty_world []) eq_refl)).
Defined.

Lemma init_binds_and_is_idempotent_witness :
  exists this',
    @init sample_codes (declared "users" (Some [by_email])) = Normal this'
    /\ _collection this' = Some "users"
    /\ @init sample_codes this' = Normal this'.
Proof.
  destruct (@init_binds_and_is_idempotent sample_codes
              (declared "users" (Some [by_email])) "users" eq_refl)
    as (this' & Hinit & Hcoll & _ & _ & _ & Hagain); [discriminate|].
  exists this'. split; [exact Hinit|]. split; [exact Hcoll|exact Hagain].
Defined.

Lemma aggregate_without_handle_throws_witness :
  let run :=
    @aggregate sample_runtime _ ScriptedDriver
      (setDebugger (declared "users" None) (Some {| has_log := true |}))
      (VArr []) VUndefined (empty_world [Fulfils (VStr "cursor")]) in
  fst run = Throw (TypeError "Cannot read property 'aggregate' of null")
  /\ length (records_of (trace (snd run))) = 1%nat.
Proof.
  destruct (@aggregate_without_handle_throws sample_runtime _ ScriptedDriver
              (setDebugger (declared "users" None) (Some {| has_log := true |}))
              (VArr []) VUndefined (empty_world [Fulfils (VStr "cursor")])
              eq_refl) as (Hrun & _ & _ & Hrecords).
  split; [exact Hrun|exact Hrecords].
Defined.

Lemma clearSystemFields_omits_witness :
  let this := {| _systemFields := Some sample_system_fields |} in
  clearSystemFields this
    (VObj [("_id", VNum 1); ("name", VStr "ann"); ("password", VStr "x")])
  = VObj [("name", VStr "ann")]
  /\ clearSystemFields new_ApiAbstract VNull = VNull
  /\ clearSystemFields this VNull = VObj [].
Proof.
  split; [reflexivity|]. split.
  - exact (proj1 (clearSystemFields_omits new_ApiAbstract VNull) eq_refl).
  - destruct (proj2 (clearSystemFields_omits
                       {| _systemFields := Some sample_system_fields |} VNull)
                _ eq_refl) as (props & Hrun & _ & _ & _ & Hnull).
    rewrite Hrun. by rewrite (Hnull eq_refl).
Defined.

Lemma validate_resolves_with_converted_data_witness :
  @validate sample_joi sample_api_codes
    (VObj [("name", VStr "ann")]) (VObj []) VUndefined
  = Resolved (VObj [("name", VStr "ann")]).
Proof.
  exact (proj1 (@validate_resolves_with_converted_data
                  sample_joi sample_api_codes
                  (VObj [("name", VStr "ann")]) (VObj []) VUndefined
                  (VObj [("name", VStr "ann")]) eq_refl)).
Defined.

Lemma validate_rejects_with_violations_witness :
  @validate sample_joi sample_api_codes
    (VObj [("age", VNum 3)]) (VObj [])
    (VObj [("allowUnknown", VBool true)])
  = Rejected
      (VObj [("message", VStr "invalid data");
             ("code", VStr "INVALID_DATA");
             ("list", VArr [VObj [("message", VStr "name is required");
                                  ("path", VStr "name");
                                  ("type", VStr "any.required")]])]).
Proof.
  apply (@validate_rejects_with_violations sample_joi sample_api_codes
           (VObj [("age", VNum 3)]) (VObj [])
           (VObj [("allowUnknown", VBool true)])
           [VObj [("message", VStr "name is required");
                  ("path", VStr "name");
                  ("type", VStr "any.required");
                  ("context", VObj [("key", VStr "name")])]]).
  - reflexivity.
  - repeat constructor.
Defined.
